(** * sha256-simd: the streaming digest engine of [sha256.go]

    A shallow embedding of the Go package [sha256] (file [sha256.go]):
    the [digest] struct, [Reset], [Write], [checkSum], [Sum], the one-shot
    helpers [Sum256] and [Sum256D32], the serialiser [Int2Bytes] and the
    two dispatchers [Block] and [block].

    Conventions.
    - A [byte], a [uint32], a [uint64] and an [int] are integers of [Z];
      every conversion and every wrap-around of the Go code is written
      out ([to_byte], [to_uint64]).
    - A slice or an array of bytes is a [list Z]; the fixed-size array
      [[8]uint32] is the record [uint32x8].
    - A run-time panic of Go (slice bounds, index out of range, the
      explicit [panic] of [checkSum]) is the [Panic] case of [result].
    - A method with a pointer receiver takes the receiver's value and
      returns the receiver's new value next to its results. *)

From Stdlib Require Import String Ascii ZArith List Lia Bool.
Import ListNotations.
Local Open Scope Z_scope.

(** ** Results of computations that may panic *)

Inductive result (A : Type) : Type :=
| Ok (a : A)
| Panic (msg : string).
Arguments Ok {A} a.
Arguments Panic {A} msg.

Definition bind {A B : Type} (r : result A) (k : A -> result B) : result B :=
  match r with
  | Ok a => k a
  | Panic msg => Panic msg
  end.

Notation "x <- r ;; k" := (bind r (fun x => k))
  (at level 61, r at next level, right associativity).
Notation "' pat <- r ;; k" := (bind r (fun x => match x with pat => k end))
  (at level 61, pat pattern, r at next level, right associativity).

(** ** Go primitives on integers and slices *)

(** The conversions [byte(v)], [uint32(v)] and [uint64(v)]. *)
Definition to_byte (v : Z) : Z := v mod 256.
Definition to_uint32 (v : Z) : Z := v mod 2 ^ 32.
Definition to_uint64 (v : Z) : Z := v mod 2 ^ 64.

(** The builtin [len], as a Go [int]. *)
Definition len {A : Type} (s : list A) : Z := Z.of_nat (length s).

(** The slice expression [s[lo:hi]]; it panics unless [0 <= lo <= hi <= len s]. *)
Definition slice {A : Type} (s : list A) (lo hi : Z) : result (list A) :=
  if (0 <=? lo) && (lo <=? hi) && (hi <=? len s)
  then Ok (firstn (Z.to_nat (hi - lo)) (skipn (Z.to_nat lo) s))
  else Panic "slice bounds out of range".

(** [s[lo:]] and [s[:hi]]. *)
Definition slice_from {A : Type} (s : list A) (lo : Z) : result (list A) :=
  slice s lo (len s).
Definition slice_to {A : Type} (s : list A) (hi : Z) : result (list A) :=
  slice s 0 hi.

(** A slice [s[lo:]] shares its storage with [s]: after the view has been
    overwritten with [view], the underlying sequence reads as follows. *)
Definition write_back {A : Type} (s : list A) (lo : Z) (view : list A) : list A :=
  firstn (Z.to_nat lo) s ++ view.

(** The builtin [copy(dst, src)]: the new contents of [dst] and the number
    of elements copied, [min(len(dst), len(src))]. *)
Definition copy (dst src : list Z) : list Z * Z :=
  let n := Z.min (len dst) (len src) in
  (firstn (Z.to_nat n) src ++ skipn (Z.to_nat n) dst, n).

(** The indexed assignment [s[i] = v]; it panics when [i] is out of range. *)
Definition store (s : list Z) (i : Z) (v : Z) : result (list Z) :=
  if (0 <=? i) && (i <? len s)
  then Ok (firstn (Z.to_nat i) s ++ v :: skipn (S (Z.to_nat i)) s)
  else Panic "index out of range".

(** [make([]byte, n)] and the zero value of [[n]byte]. *)
Definition make (n : nat) : list Z := repeat 0 n.

(** ** Constants *)

Definition Size : Z := 32.
Definition BlockSize : Z := 64.
Definition chunk : Z := 64.

Definition Init0 : Z := 0x6A09E667.
Definition Init1 : Z := 0xBB67AE85.
Definition Init2 : Z := 0x3C6EF372.
Definition Init3 : Z := 0xA54FF53A.
Definition Init4 : Z := 0x510E527F.
Definition Init5 : Z := 0x9B05688C.
Definition Init6 : Z := 0x1F83D9AB.
Definition Init7 : Z := 0x5BE0CD19.

(** ** The digest state *)

(** The array type [[8]uint32]. *)
Record uint32x8 : Type := mk8 {
  w0 : Z; w1 : Z; w2 : Z; w3 : Z; w4 : Z; w5 : Z; w6 : Z; w7 : Z
}.

(** The slice [a[:]] of an array of eight words. *)
Definition words (a : uint32x8) : list Z :=
  [w0 a; w1 a; w2 a; w3 a; w4 a; w5 a; w6 a; w7 a].

(** The struct [digest]; its fields [h], [x], [nx] and [len] are the
    projections [d_h], [d_x], [d_nx] and [d_len]. *)
Record digest : Type := mkdigest {
  d_h : uint32x8;
  d_x : list Z;
  d_nx : Z;
  d_len : Z
}.

Definition set_h (d : digest) (v : uint32x8) : digest :=
  mkdigest v (d_x d) (d_nx d) (d_len d).
Definition set_x (d : digest) (v : list Z) : digest :=
  mkdigest (d_h d) v (d_nx d) (d_len d).
Definition set_nx (d : digest) (v : Z) : digest :=
  mkdigest (d_h d) (d_x d) v (d_len d).
Definition set_len (d : digest) (v : Z) : digest :=
  mkdigest (d_h d) (d_x d) (d_nx d) v.

(** The zero value of the struct, as [var d digest] and [new(digest)] give it. *)
Definition zero_digest : digest :=
  mkdigest (mk8 0 0 0 0 0 0 0 0) (make 64) 0 0.

(** The eight initial values, as [Reset] and [Sum256D32] list them. *)
Definition init_words : uint32x8 :=
  mk8 Init0 Init1 Init2 Init3 Init4 Init5 Init6 Init7.

(** [func (d *digest) Reset()]. *)
Definition Reset (d : digest) : digest :=
  set_len (set_nx (set_h d init_words) 0) 0.

(** [func (d *digest) Size() int] and [func (d *digest) BlockSize() int]. *)
Definition digest_Size (d : digest) : Z := Size.
Definition digest_BlockSize (d : digest) : Z := BlockSize.

(** ** Big-endian serialisation *)

(** [binary.BigEndian.PutUint32(b, v)] of the Go library: it panics when
    [b] has fewer than four bytes and overwrites [b[0..3]] otherwise. *)
Definition PutUint32 (b : list Z) (v : Z) : result (list Z) :=
  if len b <? 4 then Panic "index out of range"
  else Ok (to_byte (Z.shiftr v 24) :: to_byte (Z.shiftr v 16)
           :: to_byte (Z.shiftr v 8) :: to_byte v :: skipn 4 b).

(** The loop of [Int2Bytes], [for i, s := range h], from index [i] on. *)
Fixpoint Int2Bytes_from (i : Z) (h : list Z) (digest : list Z)
  : result (list Z) :=
  match h with
  | [] => Ok digest
  | s :: h' =>
      b <- slice_from digest (Z.shiftl i 2) ;;
      b' <- PutUint32 b s ;;
      Int2Bytes_from (i + 1) h' (write_back digest (Z.shiftl i 2) b')
  end.

(** [func Int2Bytes(h []uint32, digest []byte)]: the new contents of [digest]. *)
Definition Int2Bytes (h : list Z) (digest : list Z) : result (list Z) :=
  Int2Bytes_from 0 h digest.

(** The loop that closes [checkSum], [for i, s := range h], from index [i] on. *)
Fixpoint serialize_from (i : Z) (h : list Z) (digest : list Z)
  : result (list Z) :=
  match h with
  | [] => Ok digest
  | s :: h' =>
      g <- store digest (i * 4) (to_byte (Z.shiftr s 24)) ;;
      g <- store g (i * 4 + 1) (to_byte (Z.shiftr s 16)) ;;
      g <- store g (i * 4 + 2) (to_byte (Z.shiftr s 8)) ;;
      g <- store g (i * 4 + 3) (to_byte s) ;;
      serialize_from (i + 1) h' g
  end.

(** ** The SHA-256 compression function *)

Module SHA256.

(** Addition and rotation on 32-bit words. *)
Definition add32 (a b : Z) : Z := to_uint32 (a + b).
Definition rotr (n : Z) (v : Z) : Z :=
  Z.lor (Z.shiftr v n) (to_uint32 (Z.shiftl v (32 - n))).

(** The 64 round constants. *)
Definition K : list Z :=
  [ 0x428A2F98; 0x71374491; 0xB5C0FBCF; 0xE9B5DBA5;
    0x3956C25B; 0x59F111F1; 0x923F82A4; 0xAB1C5ED5;
    0xD807AA98; 0x12835B01; 0x243185BE; 0x550C7DC3;
    0x72BE5D74; 0x80DEB1FE; 0x9BDC06A7; 0xC19BF174;
    0xE49B69C1; 0xEFBE4786; 0x0FC19DC6; 0x240CA1CC;
    0x2DE92C6F; 0x4A7484AA; 0x5CB0A9DC; 0x76F988DA;
    0x983E5152; 0xA831C66D; 0xB00327C8; 0xBF597FC7;
    0xC6E00BF3; 0xD5A79147; 0x06CA6351; 0x14292967;
    0x27B70A85; 0x2E1B2138; 0x4D2C6DFC; 0x53380D13;
    0x650A7354; 0x766A0ABB; 0x81C2C92E; 0x92722C85;
    0xA2BFE8A1; 0xA81A664B; 0xC24B8B70; 0xC76C51A3;
    0xD192E819; 0xD6990624; 0xF40E3585; 0x106AA070;
    0x19A4C116; 0x1E376C08; 0x2748774C; 0x34B0BCB5;
    0x391C0CB3; 0x4ED8AA4A; 0x5B9CCA4F; 0x682E6FF3;
    0x748F82EE; 0x78A5636F; 0x84C87814; 0x8CC70208;
    0x90BEFFFA; 0xA4506CEB; 0xBEF9A3F7; 0xC67178F2 ].

(** The sixteen big-endian words of a block. *)
Fixpoint load_words (n : nat) (p : list Z) : list Z :=
  match n with
  | O => []
  | S n' =>
      let b := fun k => nth k p 0 in
      Z.lor (Z.lor (Z.shiftl (b 0%nat) 24) (Z.shiftl (b 1%nat) 16))
            (Z.lor (Z.shiftl (b 2%nat) 8) (b 3%nat))
      :: load_words n' (skipn 4 p)
  end.

(** The message schedule, newest word first: [n] more words after [rw]. *)
Fixpoint extend (n : nat) (rw : list Z) : list Z :=
  match n with
  | O => rw
  | S n' =>
      let v1 := nth 1 rw 0 in
      let t1 := Z.lxor (Z.lxor (rotr 17 v1) (rotr 19 v1)) (Z.shiftr v1 10) in
      let v2 := nth 14 rw 0 in
      let t2 := Z.lxor (Z.lxor (rotr 7 v2) (rotr 18 v2)) (Z.shiftr v2 3) in
      extend n' (add32 (add32 (add32 t1 (nth 6 rw 0)) t2) (nth 15 rw 0) :: rw)
  end.

Definition schedule (p : list Z) : list Z :=
  rev (extend 48 (rev (load_words 16 p))).

(** One round on the eight working variables. *)
Definition round (s : uint32x8) (kw : Z * Z) : uint32x8 :=
  let '(mk8 a b c d e f g h) := s in
  let '(k, w) := kw in
  let t1 :=
    add32 (add32 (add32 (add32 h
      (Z.lxor (Z.lxor (rotr 6 e) (rotr 11 e)) (rotr 25 e)))
      (Z.lxor (Z.land e f) (Z.land (Z.lnot e) g))) k) w in
  let t2 :=
    add32 (Z.lxor (Z.lxor (rotr 2 a) (rotr 13 a)) (rotr 22 a))
          (Z.lxor (Z.lxor (Z.land a b) (Z.land a c)) (Z.land b c)) in
  mk8 (add32 t1 t2) a b c (add32 d t1) e f g.

(** Modelled from the spec: the compression function itself lives in the
    backend files of the package, not in [sha256.go].  The system
    computes SHA-256 with bit-exact standard compliance, and the
    compression function is the core transform mapping (state, block) to
    a new state: this is the transform of the standard (FIPS 180-4), in
    the shape of the generic loop of Go's library. *)
Definition compress (s : uint32x8) (p : list Z) : uint32x8 :=
  let t := fold_left round (combine K (schedule p)) s in
  mk8 (add32 (w0 s) (w0 t)) (add32 (w1 s) (w1 t))
      (add32 (w2 s) (w2 t)) (add32 (w3 s) (w3 t))
      (add32 (w4 s) (w4 t)) (add32 (w5 s) (w5 t))
      (add32 (w6 s) (w6 t)) (add32 (w7 s) (w7 t)).

End SHA256.

(** ** Rendering a digest in lowercase hexadecimal *)

Definition hex_digit (v : Z) : ascii :=
  nth (Z.to_nat v)
      ["0"; "1"; "2"; "3"; "4"; "5"; "6"; "7";
       "8"; "9"; "a"; "b"; "c"; "d"; "e"; "f"]%char "?"%char.

Fixpoint hex (bs : list Z) : string :=
  match bs with
  | [] => EmptyString
  | b :: bs' => String (hex_digit (b / 16)) (String (hex_digit (b mod 16)) (hex bs'))
  end.

Definition hex_result (r : result (list Z)) : result string :=
  bs <- r ;; Ok (hex bs).

(** ** Pure descriptions used in the statements *)

(** The four big-endian bytes of a word and the serialisation of a state. *)
Definition be32 (s : Z) : list Z :=
  [to_byte (Z.shiftr s 24); to_byte (Z.shiftr s 16); to_byte (Z.shiftr s 8); to_byte s].

Definition be_bytes (ws : list Z) : list Z := flat_map be32 ws.

(** The eight big-endian bytes of a 64-bit value. *)
Definition be64 (v : Z) : list Z :=
  map (fun i => to_byte (Z.shiftr v (56 - 8 * i))) [0; 1; 2; 3; 4; 5; 6; 7].

(** The number of padding bytes that [checkSum] writes before the length. *)
Definition pad_length (len : Z) : Z :=
  if len mod 64 <? 56 then 56 - len mod 64 else 64 + 56 - len mod 64.

(** All the bytes that [checkSum] feeds through [Write] for a total
    length of [len] bytes. *)
Definition padding (len : Z) : list Z :=
  (0x80 :: repeat 0 (Z.to_nat (pad_length len) - 1))
    ++ be64 (to_uint64 (Z.shiftl len 3)).

(** The buffered bytes of a digest, [d.x[:d.nx]]. *)
Definition buffered (d : digest) : list Z :=
  firstn (Z.to_nat (d_nx d)) (d_x d).

(** The typing and buffered-count invariant of a digest: the buffer is an
    array of 64 bytes, and fewer than 64 of them are in use. *)
Definition digest_ok (d : digest) : Prop :=
  len (d_x d) = 64 /\ 0 <= d_nx d < 64.

(** ** The engine, over a compression function and a capability configuration *)

Section Engine.

(** The compression of one 64-byte block, [(state, block) -> state], and
    the four capability flags of the package. *)
Variable compress : uint32x8 -> list Z -> uint32x8.
Variables avx2 avx ssse3 armSha : bool.

(** [n] chained compressions over the leading 64-byte blocks of [p]. *)
Fixpoint compress_blocks (n : nat) (h : uint32x8) (p : list Z) : uint32x8 :=
  match n with
  | O => h
  | S n' => compress_blocks n' (compress h (firstn 64 p)) (skipn 64 p)
  end.

(** Modelled from the spec: [blockGenericDirect(h, p)] is defined in the
    backend files of the package, not in [sha256.go].  The backend
    contract reads: the length of the blocks is an exact multiple of 64
    bytes, chaining is mandatory (block i+1 is compressed using the output
    state of block i), and zero-length input is a no-op.  The result is
    the state that the call leaves in [h]; a trailing partial block, which
    the contract excludes and no call of [sha256.go] passes, is left out. *)
Definition blockGenericDirect (h : uint32x8) (p : list Z) : uint32x8 :=
  compress_blocks (Z.to_nat (len p / chunk)) h p.

(** Modelled from the spec: the accelerated backends [blockAvx2GoDirect],
    [blockAvxGoDirect], [blockSsseGoDirect] and [blockArmGoDirect] are
    defined in the per-architecture files of the package.  The
    dispatcher's contract reads: given identical (hash_words, blocks),
    every variant must produce identical hash_words after the call. *)
Definition blockAvx2GoDirect (h : uint32x8) (p : list Z) : uint32x8 :=
  blockGenericDirect h p.
Definition blockAvxGoDirect (h : uint32x8) (p : list Z) : uint32x8 :=
  blockGenericDirect h p.
Definition blockSsseGoDirect (h : uint32x8) (p : list Z) : uint32x8 :=
  blockGenericDirect h p.
Definition blockArmGoDirect (h : uint32x8) (p : list Z) : uint32x8 :=
  blockGenericDirect h p.

(** Modelled from the spec: [blockGeneric(dig, p)], [blockAvx2Go],
    [blockAvxGo], [blockSsseGo] and [blockArmGo], defined in the same
    files, are these backends on the hash words of a digest: the chosen
    compression backend mutates the running hash state and nothing else. *)
Definition blockGeneric (dig : digest) (p : list Z) : digest :=
  set_h dig (blockGenericDirect (d_h dig) p).
Definition blockAvx2Go (dig : digest) (p : list Z) : digest :=
  set_h dig (blockAvx2GoDirect (d_h dig) p).
Definition blockAvxGo (dig : digest) (p : list Z) : digest :=
  set_h dig (blockAvxGoDirect (d_h dig) p).
Definition blockSsseGo (dig : digest) (p : list Z) : digest :=
  set_h dig (blockSsseGoDirect (d_h dig) p).
Definition blockArmGo (dig : digest) (p : list Z) : digest :=
  set_h dig (blockArmGoDirect (d_h dig) p).

(** [func Block(h []uint32, p []byte)], on a slice of eight words: the
    words that the call leaves in [h]. *)
Definition Block (h : uint32x8) (p : list Z) : uint32x8 :=
  if avx2 then blockAvx2GoDirect h p
  else if avx then blockAvxGoDirect h p
  else if ssse3 then blockSsseGoDirect h p
  else if armSha then blockArmGoDirect h p
  else blockGenericDirect h p.

(** [func block(dig *digest, p []byte)]. *)
Definition block (dig : digest) (p : list Z) : digest :=
  if avx2 then blockAvx2Go dig p
  else if avx then blockAvxGo dig p
  else if ssse3 then blockSsseGo dig p
  else if armSha then blockArmGo dig p
  else blockGeneric dig p.

(** Go's [error]; [None] is [nil]. *)
Definition error : Type := option string.

(** The first statement of [Write], [if d.nx > 0 { ... }]: the buffer is
    topped up from [p], and compressed when it holds a whole block.  The
    receiver and what is left of [p]. *)
Definition Write_fill (d : digest) (p : list Z) : result (digest * list Z) :=
  if 0 <? d_nx d then
    dst <- slice_from (d_x d) (d_nx d) ;;
    let '(dst, n) := copy dst p in
    let d := set_x d (write_back (d_x d) (d_nx d) dst) in
    let d := set_nx d (d_nx d + n) in
    let d := if d_nx d =? chunk
             then set_nx (block d (d_x d)) 0
             else d in
    p <- slice_from p n ;;
    Ok (d, p)
  else Ok (d, p).

(** The second statement, [if len(p) >= chunk { ... }]: the whole blocks
    of [p] are compressed in place. *)
Definition Write_blocks (d : digest) (p : list Z) : result (digest * list Z) :=
  if chunk <=? len p then
    let n := Z.ldiff (len p) (chunk - 1) in
    q <- slice_to p n ;;
    let d := block d q in
    p <- slice_from p n ;;
    Ok (d, p)
  else Ok (d, p).

(** The third statement, [if len(p) > 0 { d.nx = copy(d.x[:], p) }]. *)
Definition Write_keep (d : digest) (p : list Z) : digest :=
  if 0 <? len p
  then let '(dst, n) := copy (d_x d) p in set_nx (set_x d dst) n
  else d.

(** [func (d *digest) Write(p []byte) (nn int, err error)]: the receiver
    after the call and the two results. *)
Definition Write (d : digest) (p : list Z) : result (digest * (Z * error)) :=
  let nn := len p in
  let d := set_len d (to_uint64 (d_len d + to_uint64 nn)) in
  '(d, p) <- Write_fill d p ;;
  '(d, p) <- Write_blocks d p ;;
  let d := Write_keep d p in
  Ok (d, (nn, None)).

(** The loop [for i := uint(0); i < 8; i++ { tmp[i] = byte(len >> (56 - 8*i)) }]. *)
Definition put_length (len : Z) (tmp : list Z) : result (list Z) :=
  fold_left
    (fun acc i => tmp <- acc ;; store tmp i (to_byte (Z.shiftr len (56 - 8 * i))))
    [0; 1; 2; 3; 4; 5; 6; 7] (Ok tmp).

(** The first part of [checkSum], up to the test of [d.nx]: the padding
    and the length in bits go through [Write]. *)
Definition pad (d : digest) : result digest :=
  let len := d_len d in
  tmp <- store (make 64) 0 0x80 ;;
  '(d, _) <-
    (if len mod 64 <? 56
     then p <- slice tmp 0 (56 - len mod 64) ;; Write d p
     else p <- slice tmp 0 (64 + 56 - len mod 64) ;; Write d p) ;;
  let len := to_uint64 (Z.shiftl len 3) in
  tmp <- put_length len tmp ;;
  p <- slice tmp 0 8 ;;
  '(d, _) <- Write d p ;;
  Ok d.

(** [func (d *digest) checkSum() [Size]byte]: the receiver after the call
    and the digest. *)
Definition checkSum (d : digest) : result (digest * list Z) :=
  d <- pad d ;;
  if negb (d_nx d =? 0) then Panic "d.nx != 0"
  else
    let h := words (d_h d) in
    digest <- serialize_from 0 h (make 32) ;;
    Ok (d, digest).

(** [func (d *digest) Sum(in []byte) []byte]: the receiver after the call
    and the result.  [d0 := *d] copies the struct, its two arrays
    included, so [checkSum] runs on [d0] and the receiver keeps its value. *)
Definition Sum (d : digest) (inp : list Z) : result (digest * list Z) :=
  let d0 := d in
  '(d0, hash) <- checkSum d0 ;;
  Ok (d, inp ++ hash).

(** [func Sum256(data []byte) [Size]byte]. *)
Definition Sum256 (data : list Z) : result (list Z) :=
  let d := zero_digest in
  let d := Reset d in
  '(d, _) <- Write d data ;;
  '(d, out) <- checkSum d ;;
  Ok out.

(** [func Sum256D32(data []byte) [Size]byte]. *)
Definition Sum256D32 (data : list Z) : result (list Z) :=
  let stat := init_words in
  let buf := make 64 in
  let '(buf, _) := copy buf data in
  buf <- store buf 32 0x80 ;;
  buf <- store buf 62 0x01 ;;
  let stat := Block stat buf in
  let out := make 32 in
  out <- Int2Bytes (words stat) out ;;
  Ok out.

(** A sequence of [Write] calls, one per chunk. *)
Fixpoint write_all (d : digest) (chunks : list (list Z)) : result digest :=
  match chunks with
  | [] => Ok d
  | c :: chunks' => '(d, _) <- Write d c ;; write_all d chunks'
  end.

(** Finalisation, keeping the digest bytes only. *)
Definition finalize (d : digest) : result (list Z) :=
  '(_, out) <- checkSum d ;; Ok out.

(** [absorbed d msg]: the digest [d] stands for the stream [msg].  Its
    hash words are the chained compression of the whole blocks of [msg]
    from the initial values, its buffer holds the bytes of [msg] after
    them, and its length counter is the length of [msg] as a [uint64]. *)
Definition absorbed (d : digest) (msg : list Z) : Prop :=
  digest_ok d
  /\ d_nx d = len msg mod 64
  /\ d_len d = to_uint64 (len msg)
  /\ d_h d = blockGenericDirect init_words msg
  /\ buffered d = skipn (Z.to_nat (64 * (len msg / 64))) msg.

(** The digest of a stream: the chained compression of the stream
    followed by its padding, serialised. *)
Definition stream_digest (msg : list Z) : list Z :=
  be_bytes (words (blockGenericDirect init_words
                     (msg ++ padding (to_uint64 (len msg))))).

(** The block that [Sum256D32] compresses: byte [i] of the argument, or
    zero past its end, at every index but 32 and 62, which hold [0x80]
    and [0x01]. *)
Definition d32_block (data : list Z) : list Z :=
  map (fun i => if Nat.eqb i 32 then 0x80
                else if Nat.eqb i 62 then 0x01
                else nth i data 0)
      (seq 0 64).

(** ** Lists and lengths *)

Lemma len_nonneg {A} (s : list A) : 0 <= len s.
Proof. unfold len. lia. Qed.

Lemma len_app {A} (s t : list A) : len (s ++ t) = len s + len t.
Proof. unfold len. rewrite length_app. lia. Qed.

Lemma len_firstn {A} (n : Z) (s : list A) :
  0 <= n <= len s -> len (firstn (Z.to_nat n) s) = n.
Proof. unfold len. intros H. rewrite length_firstn. lia. Qed.

Lemma len_skipn {A} (n : Z) (s : list A) :
  0 <= n <= len s -> len (skipn (Z.to_nat n) s) = len s - n.
Proof. unfold len. intros H. rewrite length_skipn. lia. Qed.

Lemma len_repeat (v : Z) (n : nat) : len (repeat v n) = Z.of_nat n.
Proof. unfold len. now rewrite repeat_length. Qed.

Lemma len_nil_inv {A} (s : list A) : len s = 0 -> s = [].
Proof. destruct s; [reflexivity | unfold len; simpl; lia]. Qed.

Lemma firstn_all_len {A} (n : Z) (s : list A) :
  len s <= n -> firstn (Z.to_nat n) s = s.
Proof. unfold len. intros H. apply firstn_all2. lia. Qed.

Lemma skipn_all_len {A} (n : Z) (s : list A) :
  len s <= n -> skipn (Z.to_nat n) s = [].
Proof. unfold len. intros H. apply skipn_all2. lia. Qed.

Lemma firstn_app_le {A} (n : nat) (s t : list A) :
  (n <= length s)%nat -> firstn n (s ++ t) = firstn n s.
Proof.
  intros H. rewrite firstn_app.
  replace (n - length s)%nat with 0%nat by lia.
  rewrite firstn_O. apply app_nil_r.
Qed.

Lemma skipn_app_le {A} (n : nat) (s t : list A) :
  (n <= length s)%nat -> skipn n (s ++ t) = skipn n s ++ t.
Proof.
  intros H. rewrite skipn_app.
  replace (n - length s)%nat with 0%nat by lia.
  reflexivity.
Qed.

Lemma skipn_resume {A} (a b : nat) (s t : list A) :
  (a <= length s)%nat -> skipn b (skipn a s ++ t) = skipn (b + a) (s ++ t).
Proof.
  intros H. rewrite <- skipn_skipn. rewrite (skipn_app_le a s t) by lia. reflexivity.
Qed.

Lemma slice_ok {A} (s : list A) (lo hi : Z) :
  0 <= lo <= hi -> hi <= len s ->
  slice s lo hi = Ok (firstn (Z.to_nat (hi - lo)) (skipn (Z.to_nat lo) s)).
Proof.
  intros H1 H2. unfold slice.
  replace (0 <=? lo) with true by (symmetry; apply Z.leb_le; lia).
  replace (lo <=? hi) with true by (symmetry; apply Z.leb_le; lia).
  replace (hi <=? len s) with true by (symmetry; apply Z.leb_le; lia).
  reflexivity.
Qed.

Lemma slice_from_ok {A} (s : list A) (lo : Z) :
  0 <= lo <= len s -> slice_from s lo = Ok (skipn (Z.to_nat lo) s).
Proof.
  intros H. unfold slice_from. rewrite slice_ok by lia.
  f_equal. apply firstn_all_len. rewrite len_skipn by lia. lia.
Qed.

Lemma slice_to_ok {A} (s : list A) (hi : Z) :
  0 <= hi <= len s -> slice_to s hi = Ok (firstn (Z.to_nat hi) s).
Proof.
  intros H. unfold slice_to. rewrite slice_ok by lia.
  now rewrite Z.sub_0_r.
Qed.

Lemma store_ok (s : list Z) (i v : Z) :
  0 <= i < len s ->
  store s i v = Ok (firstn (Z.to_nat i) s ++ v :: skipn (S (Z.to_nat i)) s).
Proof.
  intros H. unfold store.
  replace (0 <=? i) with true by (symmetry; apply Z.leb_le; lia).
  replace (i <? len s) with true by (symmetry; apply Z.ltb_lt; lia).
  reflexivity.
Qed.

(** Clearing the low six bits rounds down to a multiple of 64. *)
Lemma ldiff_63 (n : Z) : 0 <= n -> Z.ldiff n (chunk - 1) = 64 * (n / 64).
Proof.
  intros Hn. change (chunk - 1) with (Z.ones 6).
  rewrite Z.ldiff_ones_r by lia.
  change (2 ^ 6) with 64. rewrite Z.shiftr_div_pow2, Z.shiftl_mul_pow2 by lia.
  change (2 ^ 6) with 64. lia.
Qed.

(** *** The dispatchers *)

Lemma Block_generic (h : uint32x8) (p : list Z) :
  Block h p = blockGenericDirect h p.
Proof. unfold Block. destruct avx2, avx, ssse3, armSha; reflexivity. Qed.

Lemma block_generic (d : digest) (p : list Z) :
  block d p = set_h d (blockGenericDirect (d_h d) p).
Proof. unfold block. destruct avx2, avx, ssse3, armSha; reflexivity. Qed.

(** *** Chained compression *)

Lemma compress_blocks_app (n m : nat) :
  forall (h : uint32x8) (a b : list Z),
    length a = (64 * n)%nat ->
    compress_blocks (n + m) h (a ++ b) = compress_blocks m (compress_blocks n h a) b.
Proof.
  induction n as [|n IH]; intros h a b Ha.
  - destruct a; [reflexivity | discriminate].
  - cbn [Nat.add compress_blocks].
    rewrite firstn_app_le, skipn_app_le by lia.
    apply IH. rewrite length_skipn. lia.
Qed.

Lemma compress_blocks_prefix (n : nat) :
  forall (h : uint32x8) (a b : list Z),
    (64 * n <= length a)%nat ->
    compress_blocks n h (a ++ b) = compress_blocks n h a.
Proof.
  induction n as [|n IH]; intros h a b Ha; [reflexivity|].
  cbn [compress_blocks].
  rewrite firstn_app_le, skipn_app_le by lia.
  apply IH. rewrite length_skipn. lia.
Qed.

Lemma blockGenericDirect_short (h : uint32x8) (p : list Z) :
  len p < 64 -> blockGenericDirect h p = h.
Proof.
  intros H. unfold blockGenericDirect, chunk.
  rewrite Z.div_small by (pose proof (len_nonneg p); lia). reflexivity.
Qed.

Lemma blockGenericDirect_one (h : uint32x8) (p : list Z) :
  len p = 64 -> blockGenericDirect h p = compress h p.
Proof.
  intros H. unfold blockGenericDirect, chunk. rewrite H.
  change (Z.to_nat (64 / 64)) with 1%nat. cbn [compress_blocks].
  f_equal. apply firstn_all2. unfold len in H. lia.
Qed.

Lemma blockGenericDirect_app (h : uint32x8) (a b : list Z) :
  len a mod 64 = 0 ->
  blockGenericDirect h (a ++ b) = blockGenericDirect (blockGenericDirect h a) b.
Proof.
  intros H. unfold blockGenericDirect, chunk.
  pose proof (len_nonneg a) as Ha. pose proof (len_nonneg b) as Hb.
  assert (Hq : len a = 64 * (len a / 64)) by (pose proof (Z.div_mod (len a) 64); lia).
  rewrite len_app.
  replace ((len a + len b) / 64) with (len a / 64 + len b / 64).
  2:{ rewrite Hq at 2. rewrite Z.mul_comm, Z.div_add_l by lia. reflexivity. }
  rewrite Z2Nat.inj_add by (apply Z.div_pos; lia).
  apply compress_blocks_app. unfold len in *. lia.
Qed.

Lemma blockGenericDirect_firstn (h : uint32x8) (p : list Z) :
  blockGenericDirect h (firstn (Z.to_nat (64 * (len p / 64))) p)
  = blockGenericDirect h p.
Proof.
  pose proof (len_nonneg p) as Hp.
  pose proof (Z.div_mod (len p) 64) as Hdm.
  pose proof (Z.mod_pos_bound (len p) 64) as Hm.
  assert (Hq : 0 <= len p / 64) by (apply Z.div_pos; lia).
  rewrite <- (firstn_skipn (Z.to_nat (64 * (len p / 64))) p) at 3.
  unfold blockGenericDirect, chunk.
  rewrite len_app, len_firstn, len_skipn by lia.
  replace (64 * (len p / 64) + (len p - 64 * (len p / 64))) with (len p) by lia.
  replace (64 * (len p / 64) / 64) with (len p / 64)
    by (rewrite Z.mul_comm, Z.div_mul by lia; reflexivity).
  symmetry. apply compress_blocks_prefix.
  rewrite length_firstn. unfold len in *. lia.
Qed.

(** Compression resumes where it stopped: the blocks of [a ++ b] are the
    full blocks of [a], then the blocks of what [a] left over followed by [b]. *)
Lemma blockGenericDirect_resume (h : uint32x8) (a b : list Z) :
  blockGenericDirect (blockGenericDirect h a)
    (skipn (Z.to_nat (64 * (len a / 64))) a ++ b)
  = blockGenericDirect h (a ++ b).
Proof.
  pose proof (len_nonneg a) as Hp.
  pose proof (Z.div_mod (len a) 64) as Hdm.
  pose proof (Z.mod_pos_bound (len a) 64) as Hm.
  assert (Hq : 0 <= len a / 64) by (apply Z.div_pos; lia).
  transitivity
    (blockGenericDirect h
       ((firstn (Z.to_nat (64 * (len a / 64))) a
         ++ skipn (Z.to_nat (64 * (len a / 64))) a) ++ b));
    [| now rewrite firstn_skipn].
  rewrite <- app_assoc.
  rewrite (blockGenericDirect_app h (firstn (Z.to_nat (64 * (len a / 64))) a)).
  - now rewrite blockGenericDirect_firstn.
  - rewrite len_firstn by lia. rewrite Z.mul_comm. apply Z.mod_mul. lia.
Qed.

(** *** One call of [Write] *)

(** The second and third statements of [Write] on an empty buffer. *)
Lemma Write_tail_aligned (d : digest) (p : list Z) :
  len (d_x d) = 64 -> d_nx d = 0 ->
  exists xs,
    ('(d', p') <- Write_blocks d p ;; Ok (Write_keep d' p'))
    = Ok (mkdigest (blockGenericDirect (d_h d) p) xs (len p mod 64) (d_len d))
    /\ len xs = 64
    /\ firstn (Z.to_nat (len p mod 64)) xs
       = skipn (Z.to_nat (64 * (len p / 64))) p.
Proof.
  intros Hx Hnx.
  pose proof (len_nonneg p) as Hp.
  pose proof (Z.div_mod (len p) 64) as Hdm.
  pose proof (Z.mod_pos_bound (len p) 64) as Hm.
  assert (Hq : 0 <= len p / 64) by (apply Z.div_pos; lia).
  unfold Write_blocks, chunk.
  destruct (64 <=? len p) eqn:Hge.
  - apply Z.leb_le in Hge.
    change (64 - 1) with (chunk - 1). rewrite ldiff_63 by lia.
    rewrite slice_to_ok, slice_from_ok by lia. cbn [bind].
    rewrite block_generic, blockGenericDirect_firstn.
    set (r := skipn (Z.to_nat (64 * (len p / 64))) p).
    assert (Hr : len r = len p mod 64) by (unfold r; rewrite len_skipn; lia).
    unfold Write_keep. destruct (0 <? len r) eqn:Hpos.
    + apply Z.ltb_lt in Hpos. unfold copy. cbn [d_x set_h].
      rewrite Hx, Z.min_r by lia. rewrite firstn_all_len by lia.
      eexists. split; [|split].
      * unfold set_nx, set_x, set_h. cbn. rewrite Hr. reflexivity.
      * rewrite len_app, len_skipn by lia. lia.
      * rewrite <- Hr. unfold len. rewrite Nat2Z.id.
        rewrite firstn_app_le by lia. apply firstn_all.
    + apply Z.ltb_ge in Hpos. assert (Hr0 : len r = 0) by (pose proof (len_nonneg r); lia).
      exists (d_x d). split; [|split].
      * unfold set_h. cbn. rewrite <- Hr, Hr0, Hnx. reflexivity.
      * exact Hx.
      * rewrite <- Hr, Hr0. cbn [Z.to_nat firstn]. symmetry. now apply len_nil_inv.
  - apply Z.leb_gt in Hge. cbn [bind].
    rewrite blockGenericDirect_short by lia.
    rewrite Z.div_small, Z.mod_small by lia. cbn [Z.mul Z.to_nat skipn].
    unfold Write_keep. destruct (0 <? len p) eqn:Hpos.
    + apply Z.ltb_lt in Hpos. unfold copy.
      rewrite Hx, Z.min_r by lia. rewrite firstn_all_len by lia.
      eexists. split; [|split].
      * unfold set_nx, set_x. cbn. reflexivity.
      * rewrite len_app, len_skipn by lia. lia.
      * unfold len. rewrite Nat2Z.id.
        rewrite firstn_app_le by lia. apply firstn_all.
    + apply Z.ltb_ge in Hpos. assert (Hp0 : len p = 0) by lia.
      exists (d_x d). split; [|split].
      * destruct d; cbn in *. rewrite Hp0, Hnx. reflexivity.
      * exact Hx.
      * rewrite Hp0. cbn [Z.to_nat firstn]. symmetry. now apply len_nil_inv.
Qed.

(** What one [Write] does to a digest that satisfies [digest_ok]: it
    never panics, accepts all of [p], and carries on the compression of
    the buffered bytes followed by [p]. *)
Lemma Write_local (d : digest) (p : list Z) :
  digest_ok d ->
  exists xs,
    Write d p
    = Ok (mkdigest (blockGenericDirect (d_h d) (buffered d ++ p)) xs
            ((d_nx d + len p) mod 64) (to_uint64 (d_len d + len p)),
          (len p, None))
    /\ len xs = 64
    /\ firstn (Z.to_nat ((d_nx d + len p) mod 64)) xs
       = skipn (Z.to_nat (64 * ((d_nx d + len p) / 64))) (buffered d ++ p).
Proof.
  intros [Hx Hnx].
  pose proof (len_nonneg p) as Hp.
  assert (Hlen : to_uint64 (d_len d + to_uint64 (len p)) = to_uint64 (d_len d + len p))
    by (unfold to_uint64; apply Zplus_mod_idemp_r).
  unfold Write. rewrite Hlen.
  set (d1 := set_len d (to_uint64 (d_len d + len p))).
  assert (Hb : len (buffered d) = d_nx d) by (unfold buffered; apply len_firstn; lia).
  unfold Write_fill. change (d_nx d1) with (d_nx d). change (d_x d1) with (d_x d).
  destruct (0 <? d_nx d) eqn:Hpos.
  - apply Z.ltb_lt in Hpos.
    rewrite slice_from_ok by lia. cbn [bind]. unfold copy.
    rewrite len_skipn, Hx by lia.
    destruct (Z_lt_ge_dec (d_nx d + len p) 64) as [Hlt | Hge].
    + (* the buffer does not fill up *)
      rewrite Z.min_r by lia. rewrite firstn_all_len by lia.
      cbn [d_nx set_nx set_x d_x]. change (d_nx d1) with (d_nx d).
      replace (d_nx d + len p =? chunk) with false
        by (symmetry; apply Z.eqb_neq; unfold chunk; lia).
      rewrite slice_from_ok by lia. cbn [bind].
      rewrite (skipn_all_len (len p) p) by lia.
      unfold Write_blocks, Write_keep. cbn [len length Z.of_nat bind].
      change (chunk <=? 0) with false. cbn [bind Z.ltb Z.compare].
      rewrite blockGenericDirect_short by (rewrite len_app; lia).
      rewrite Z.mod_small, Z.div_small by lia.
      eexists. split; [reflexivity | split]; cbn [d_x set_x set_nx].
      * unfold write_back. rewrite !len_app, len_firstn, len_skipn.
        -- rewrite len_skipn by lia. lia.
        -- rewrite len_skipn by lia. lia.
        -- lia.
      * cbn [Z.mul Z.to_nat skipn]. unfold write_back. fold (buffered d).
        rewrite app_assoc.
        rewrite firstn_app_le by (rewrite length_app; unfold len in *; lia).
        apply firstn_all2. rewrite length_app. unfold len in *. lia.
    + (* the buffer fills up and is compressed *)
      rewrite Z.min_l by lia.
      cbn [d_nx set_nx set_x d_x]. change (d_nx d1) with (d_nx d).
      replace (d_nx d + (64 - d_nx d) =? chunk) with true
        by (symmetry; apply Z.eqb_eq; unfold chunk; lia).
      rewrite slice_from_ok by lia. cbn [bind].
      rewrite block_generic.
      set (n := Z.to_nat (64 - d_nx d)).
      assert (Hx1 : write_back (d_x d) (d_nx d)
                      (firstn n p ++ skipn n (skipn (Z.to_nat (d_nx d)) (d_x d)))
                    = buffered d ++ firstn n p).
      { unfold write_back. fold (buffered d). f_equal.
        rewrite skipn_all2; [apply app_nil_r|].
        rewrite length_skipn. unfold len, n in *. lia. }
      cbn [d_x d_h set_x set_nx set_h]. rewrite Hx1.
      set (x1 := buffered d ++ firstn n p).
      assert (Hlx1 : len x1 = 64).
      { unfold x1, n. rewrite len_app, len_firstn by lia. lia. }
      set (d2 := set_nx _ 0).
      destruct (Write_tail_aligned d2 (skipn n p)) as (xs & Htail & Hxs & Hrem).
      { exact Hlx1. } { reflexivity. }
      assert (Hlp : len (skipn n p) = d_nx d + len p - 64)
        by (unfold n; rewrite len_skipn; lia).
      assert (Hmod : (d_nx d + len p) mod 64 = len (skipn n p) mod 64).
      { rewrite Hlp.
        transitivity ((d_nx d + len p - 64 + 1 * 64) mod 64);
          [f_equal; lia | apply Z.mod_add; lia]. }
      assert (Hdiv : (d_nx d + len p) / 64 = 1 + len (skipn n p) / 64).
      { rewrite Hlp.
        transitivity ((d_nx d + len p - 64 + 1 * 64) / 64);
          [f_equal; lia | rewrite Z.div_add by lia; lia]. }
      exists xs. split; [|split].
      * destruct (Write_blocks d2 (skipn n p)) as [[d3 p3]|] eqn:Hblocks;
          cbn [bind] in Htail |- *; [|discriminate].
        injection Htail as ->.
        rewrite Hmod. do 2 f_equal.
        change (d_h d2) with (blockGenericDirect (d_h d) x1).
        rewrite <- blockGenericDirect_app by (rewrite Hlx1; reflexivity).
        unfold x1. rewrite <- app_assoc, firstn_skipn. reflexivity.
      * exact Hxs.
      * rewrite Hmod, Hrem, Hdiv.
        replace (buffered d ++ p) with (x1 ++ skipn n p)
          by (unfold x1; rewrite <- app_assoc, firstn_skipn; reflexivity).
        assert (Hq : 0 <= len (skipn n p) / 64)
          by (apply Z.div_pos; [apply len_nonneg | lia]).
        replace (Z.to_nat (64 * (1 + len (skipn n p) / 64)))
          with (length x1 + Z.to_nat (64 * (len (skipn n p) / 64)))%nat
          by (unfold len in *; lia).
        rewrite skipn_app.
        replace (length x1 + Z.to_nat (64 * (len (skipn n p) / 64)) - length x1)%nat
          with (Z.to_nat (64 * (len (skipn n p) / 64))) by lia.
        rewrite (skipn_all2 x1) by lia. reflexivity.
  - apply Z.ltb_ge in Hpos. assert (Hnx0 : d_nx d = 0) by lia.
    cbn [bind].
    destruct (Write_tail_aligned d1 p) as (xs & Htail & Hxs & Hrem);
      [exact Hx | exact Hnx0 |].
    assert (Hbuf : buffered d = []) by (unfold buffered; rewrite Hnx0; reflexivity).
    exists xs. rewrite Hbuf, Hnx0. cbn [app Z.add]. split; [|split]; try assumption.
    destruct (Write_blocks d1 p) as [[d3 p3]|] eqn:Hblocks;
      cbn [bind] in Htail |- *; [|discriminate].
    injection Htail as ->. reflexivity.
Qed.

Lemma Write_digest_ok (d : digest) (p : list Z) :
  digest_ok d ->
  exists d', Write d p = Ok (d', (len p, None)) /\ digest_ok d'.
Proof.
  intros Hok. destruct (Write_local d p Hok) as (xs & HW & Hxs & _).
  eexists. split; [exact HW|]. split; cbn [d_x d_nx]; [exact Hxs|].
  apply Z.mod_pos_bound. lia.
Qed.

(** *** Streams of [Write] calls *)

Lemma Reset_absorbed (d : digest) :
  len (d_x d) = 64 -> absorbed (Reset d) [].
Proof.
  intros Hx. unfold absorbed, digest_ok, Reset, buffered. cbn.
  repeat split; try assumption; try lia.
Qed.

Lemma Write_absorbed (d : digest) (msg p : list Z) :
  absorbed d msg ->
  exists d', Write d p = Ok (d', (len p, None)) /\ absorbed d' (msg ++ p).
Proof.
  intros (Hok & Hnx & Hlen & Hh & Hbuf).
  destruct (Write_local d p Hok) as (xs & HW & Hxs & Hrem).
  pose proof (len_nonneg msg) as Hm. pose proof (len_nonneg p) as Hp.
  pose proof (Z.div_mod (len msg) 64) as Hdm.
  pose proof (Z.mod_pos_bound (len msg) 64) as Hmb.
  assert (Hq : 0 <= len msg / 64) by (apply Z.div_pos; lia).
  assert (Hmod : (d_nx d + len p) mod 64 = len (msg ++ p) mod 64).
  { rewrite Hnx, len_app. apply Zplus_mod_idemp_l. }
  assert (Hdiv : len (msg ++ p) / 64 = len msg / 64 + (d_nx d + len p) / 64).
  { rewrite Hnx, len_app.
    transitivity ((len msg mod 64 + len p + len msg / 64 * 64) / 64);
      [f_equal; lia | rewrite Z.div_add by lia; lia]. }
  eexists. split; [exact HW|].
  unfold absorbed, digest_ok. cbn [d_h d_x d_nx d_len].
  repeat split.
  - exact Hxs.
  - apply Z.mod_pos_bound. lia.
  - apply Z.mod_pos_bound. lia.
  - exact Hmod.
  - rewrite Hlen, len_app. unfold to_uint64. apply Zplus_mod_idemp_l.
  - rewrite Hh, Hbuf. apply blockGenericDirect_resume.
  - unfold buffered at 1. cbn [d_x d_nx]. rewrite Hrem, Hbuf, Hdiv.
    assert (Hq2 : 0 <= (d_nx d + len p) / 64) by (apply Z.div_pos; lia).
    rewrite skipn_resume by (unfold len in *; lia).
    f_equal. lia.
Qed.

Lemma write_all_absorbed (chunks : list (list Z)) :
  forall (d : digest) (msg : list Z),
    absorbed d msg ->
    exists d', write_all d chunks = Ok d' /\ absorbed d' (msg ++ concat chunks).
Proof.
  induction chunks as [|c chunks IH]; intros d msg Habs.
  - exists d. cbn. rewrite app_nil_r. auto.
  - destruct (Write_absorbed d msg c Habs) as (d1 & HW & Habs1).
    destruct (IH d1 (msg ++ c) Habs1) as (d2 & Hall & Habs2).
    exists d2. cbn [write_all concat]. rewrite HW. cbn [bind].
    rewrite app_assoc. auto.
Qed.

(** *** Serialisation *)

Lemma serialize_from_words (a : uint32x8) :
  serialize_from 0 (words a) (make 32) = Ok (be_bytes (words a)).
Proof. destruct a. cbv -[to_byte Z.shiftr]. reflexivity. Qed.

Lemma Int2Bytes_words (a : uint32x8) :
  Int2Bytes (words a) (make 32) = Ok (be_bytes (words a)).
Proof. destruct a. cbv -[to_byte Z.shiftr]. reflexivity. Qed.

Lemma len_be_bytes_words (a : uint32x8) : len (be_bytes (words a)) = 32.
Proof. reflexivity. Qed.

(** *** Padding *)

Lemma pad_length_bounds (n : Z) : 1 <= pad_length n <= 64.
Proof.
  unfold pad_length. pose proof (Z.mod_pos_bound n 64) as H.
  destruct (n mod 64 <? 56) eqn:E;
    [apply Z.ltb_lt in E | apply Z.ltb_ge in E]; lia.
Qed.

Lemma pad_length_mod (n : Z) : (n mod 64 + pad_length n) mod 64 = 56.
Proof.
  unfold pad_length. pose proof (Z.mod_pos_bound n 64) as H.
  destruct (n mod 64 <? 56) eqn:E.
  - replace (n mod 64 + (56 - n mod 64)) with 56 by lia. reflexivity.
  - replace (n mod 64 + (64 + 56 - n mod 64)) with 120 by lia. reflexivity.
Qed.

Lemma firstn_repeat_le (v : Z) (n m : nat) :
  (n <= m)%nat -> firstn n (repeat v m) = repeat v n.
Proof.
  revert m. induction n as [|n IH]; intros m H; [reflexivity|].
  destruct m as [|m]; [lia|]. cbn. f_equal. apply IH. lia.
Qed.

Lemma put_length_tmp (v : Z) :
  put_length v (0x80 :: repeat 0 63) = Ok (be64 v ++ repeat 0 56).
Proof. cbv -[to_byte Z.shiftr]. reflexivity. Qed.

Lemma len_be64 (v : Z) : len (be64 v) = 8.
Proof. reflexivity. Qed.

(** The two [Write] calls of [checkSum], with their arguments spelled out. *)
Lemma pad_writes (d : digest) :
  pad d
  = ('(d1, _) <- Write d (0x80 :: repeat 0 (Z.to_nat (pad_length (d_len d)) - 1)) ;;
     '(d2, _) <- Write d1 (be64 (to_uint64 (Z.shiftl (d_len d) 3))) ;;
     Ok d2).
Proof.
  unfold pad.
  change (store (make 64) 0 128) with (Ok (128 :: repeat 0 63)). cbn [bind].
  pose proof (pad_length_bounds (d_len d)) as Hk.
  assert (Hs : (if d_len d mod 64 <? 56
                then p <- slice (128 :: repeat 0 63) 0 (56 - d_len d mod 64) ;; Write d p
                else p <- slice (128 :: repeat 0 63) 0 (64 + 56 - d_len d mod 64) ;; Write d p)
               = Write d (128 :: repeat 0 (Z.to_nat (pad_length (d_len d)) - 1))).
  { assert (Hf : slice (128 :: repeat 0 63) 0 (pad_length (d_len d))
                 = Ok (128 :: repeat 0 (Z.to_nat (pad_length (d_len d)) - 1))).
    { rewrite slice_ok by (change (len (128 :: repeat 0 63)) with 64; lia).
      rewrite Z.sub_0_r. cbn [Z.to_nat skipn]. f_equal.
      destruct (Z.to_nat (pad_length (d_len d))) as [|k] eqn:Ek; [lia|].
      cbn [firstn]. rewrite firstn_repeat_le by lia.
      now rewrite Nat.sub_succ, Nat.sub_0_r. }
    unfold pad_length in Hf |- *.
    destruct (d_len d mod 64 <? 56); rewrite Hf; reflexivity. }
  rewrite Hs.
  destruct (Write d _) as [[d1 r1]|m]; cbn [bind]; [|reflexivity].
  rewrite put_length_tmp. cbn [bind].
  change (slice (be64 (to_uint64 (Z.shiftl (d_len d) 3)) ++ repeat 0 56) 0 8)
    with (Ok (be64 (to_uint64 (Z.shiftl (d_len d) 3)))).
  reflexivity.
Qed.

Lemma len_padding_head (n : Z) :
  len (0x80 :: repeat 0 (Z.to_nat (pad_length n) - 1)) = pad_length n.
Proof.
  pose proof (pad_length_bounds n) as Hk.
  unfold len. cbn [length]. rewrite repeat_length. lia.
Qed.

(** The padding takes a digest whose buffered count agrees with its
    length counter to an empty buffer, and compresses the buffered bytes
    followed by the padding. *)
Lemma pad_local (d : digest) :
  digest_ok d -> d_nx d = d_len d mod 64 ->
  exists d',
    pad d = Ok d'
    /\ d_nx d' = 0
    /\ len (d_x d') = 64
    /\ d_h d' = blockGenericDirect (d_h d) (buffered d ++ padding (d_len d))
    /\ d_len d' = to_uint64 (d_len d + pad_length (d_len d) + 8).
Proof.
  intros Hok Hnx. rewrite pad_writes.
  set (p1 := 128 :: repeat 0 (Z.to_nat (pad_length (d_len d)) - 1)).
  set (p2 := be64 (to_uint64 (Z.shiftl (d_len d) 3))).
  assert (Hp1 : len p1 = pad_length (d_len d)) by apply len_padding_head.
  pose proof (pad_length_bounds (d_len d)) as Hk.
  destruct (Write_local d p1 Hok) as (xs1 & HW1 & Hxs1 & Hrem1).
  rewrite HW1. cbn [bind].
  rewrite Hp1, Hnx, pad_length_mod in *.
  set (d1 := mkdigest _ xs1 56 _).
  assert (Hok1 : digest_ok d1) by (split; cbn; [exact Hxs1 | lia]).
  destruct (Write_local d1 p2 Hok1) as (xs2 & HW2 & Hxs2 & _).
  rewrite HW2. cbn [bind].
  eexists. split; [reflexivity|]. subst d1. cbn [d_h d_x d_nx d_len].
  repeat split.
  - exact Hxs2.
  - change (buffered (mkdigest ?a xs1 56 ?c)) with (firstn (Z.to_nat 56) xs1).
    rewrite Hrem1.
    assert (Hb : len (buffered d ++ p1) = d_len d mod 64 + pad_length (d_len d)).
    { rewrite len_app, Hp1. unfold buffered. rewrite len_firstn; destruct Hok; lia. }
    rewrite <- Hb, blockGenericDirect_resume, <- app_assoc. reflexivity.
  - change (len p2) with 8. unfold to_uint64. rewrite Zplus_mod_idemp_l. reflexivity.
Qed.

(** [checkSum] on such a digest returns the serialised hash words. *)
Lemma checkSum_local (d : digest) :
  digest_ok d -> d_nx d = d_len d mod 64 ->
  exists d',
    pad d = Ok d'
    /\ d_nx d' = 0
    /\ checkSum d
       = Ok (d', be_bytes (words (blockGenericDirect (d_h d)
                                    (buffered d ++ padding (d_len d))))).
Proof.
  intros Hok Hnx.
  destruct (pad_local d Hok Hnx) as (d' & Hpad & Hnx' & _ & Hh & _).
  exists d'. repeat split; try assumption.
  unfold checkSum. rewrite Hpad. cbn [bind]. rewrite Hnx'. cbn [Z.eqb negb].
  rewrite serialize_from_words. cbn [bind]. now rewrite Hh.
Qed.

Lemma finalize_absorbed (d : digest) (msg : list Z) :
  absorbed d msg -> finalize d = Ok (stream_digest msg).
Proof.
  intros (Hok & Hnx & Hlen & Hh & Hbuf).
  assert (Hnx' : d_nx d = d_len d mod 64).
  { rewrite Hnx, Hlen. unfold to_uint64.
    change (2 ^ 64) with (64 * 288230376151711744).
    rewrite Z.rem_mul_r by lia.
    rewrite (Z.mul_comm 64), Z.mod_add, Z.mod_mod by lia. reflexivity. }
  destruct (checkSum_local d Hok Hnx') as (d' & _ & _ & Hsum).
  unfold finalize. rewrite Hsum. cbn [bind]. unfold stream_digest.
  rewrite Hh, Hbuf, Hlen, blockGenericDirect_resume. reflexivity.
Qed.

Lemma stream_absorbed (d0 : digest) (chunks : list (list Z)) :
  len (d_x d0) = 64 ->
  exists d, write_all (Reset d0) chunks = Ok d /\ absorbed d (concat chunks).
Proof.
  intros Hx.
  destruct (write_all_absorbed chunks (Reset d0) [] (Reset_absorbed d0 Hx))
    as (d & Hall & Habs).
  exists d. auto.
Qed.

Lemma len_stream_digest (msg : list Z) : len (stream_digest msg) = 32.
Proof. apply len_be_bytes_words. Qed.

Lemma absorbed_counters (d : digest) (msg : list Z) :
  absorbed d msg -> digest_ok d /\ d_nx d = d_len d mod 64.
Proof.
  intros (Hok & Hnx & Hlen & _). split; [exact Hok|].
  rewrite Hnx, Hlen. unfold to_uint64.
  change (2 ^ 64) with (64 * 288230376151711744).
  rewrite Z.rem_mul_r by lia.
  rewrite (Z.mul_comm 64), Z.mod_add, Z.mod_mod by lia. reflexivity.
Qed.

(** ** The claims *)

(** C1. Chunking invariance: whatever the chunk boundaries, writing the
    chunks to a freshly reset digest one [Write] at a time and finalising
    gives the digest that a single [Write] of the whole sequence gives;
    both runs end without a panic, on 32 bytes. *)
Theorem chunking_invariance (d0 : digest) (chunks : list (list Z)) :
  len (d_x d0) = 64 ->
  (d <- write_all (Reset d0) chunks ;; finalize d)
  = ('(d, _) <- Write (Reset d0) (concat chunks) ;; finalize d)
  /\ exists out,
       (d <- write_all (Reset d0) chunks ;; finalize d) = Ok out
       /\ len out = 32.
Proof.
  intros Hx.
  destruct (stream_absorbed d0 chunks Hx) as (d & Hall & Habs).
  destruct (Write_absorbed (Reset d0) [] (concat chunks) (Reset_absorbed d0 Hx))
    as (d1 & HW & Habs1).
  rewrite Hall, HW. cbn [bind app] in *.
  rewrite (finalize_absorbed d _ Habs), (finalize_absorbed d1 _ Habs1).
  split; [reflexivity|].
  eexists. split; [reflexivity | apply len_stream_digest].
Qed.

(** C5. The panic of [checkSum] is unreachable: after any sequence of
    [Write] calls on a reset digest, of any total length, the padding
    and the length field leave the buffered count at 0, and [checkSum]
    returns a digest. *)
Theorem padding_empties_buffer (d0 : digest) (chunks : list (list Z)) :
  len (d_x d0) = 64 ->
  exists d d' out,
    write_all (Reset d0) chunks = Ok d
    /\ pad d = Ok d'
    /\ d_nx d' = 0
    /\ checkSum d = Ok (d', out).
Proof.
  intros Hx.
  destruct (stream_absorbed d0 chunks Hx) as (d & Hall & Habs).
  destruct (absorbed_counters d _ Habs) as [Hok Hnx].
  destruct (checkSum_local d Hok Hnx) as (d' & Hpad & Hnx' & Hsum).
  exists d, d'. eexists. repeat split; eassumption.
Qed.

(** C7. [Write] never fails: on a digest that satisfies the buffered-count
    invariant it returns [len(p)] and a nil error for every [p], the empty
    slice included, and adds [len(p)] to the length counter, a [uint64];
    the sum is exact as long as it fits in 64 bits. *)
Theorem Write_accepts_everything (d : digest) (p : list Z) :
  digest_ok d ->
  exists d',
    Write d p = Ok (d', (len p, None))
    /\ d_len d' = to_uint64 (d_len d + len p)
    /\ (0 <= d_len d -> d_len d + len p < 2 ^ 64 -> d_len d' = d_len d + len p).
Proof.
  intros Hok. destruct (Write_local d p Hok) as (xs & HW & _).
  eexists. split; [exact HW|]. cbn [d_len]. split; [reflexivity|].
  intros H0 Hfit. unfold to_uint64. apply Z.mod_small.
  pose proof (len_nonneg p). lia.
Qed.

(** C9. The buffered-count invariant: after [Reset] and after every
    [Write] the buffered count lies in [0, 64); the bytes written so far
    split into a consumed part, whose length is a multiple of 64 and of
    which the hash words are the chained compression, and the part not
    yet compressed, which is exactly [d.x[:d.nx]]. *)
Theorem buffered_count_invariant (d0 : digest) (chunks : list (list Z)) :
  len (d_x d0) = 64 ->
  exists d,
    write_all (Reset d0) chunks = Ok d
    /\ 0 <= d_nx d < 64
    /\ let msg := concat chunks in
       let consumed := len msg - d_nx d in
       0 <= consumed
       /\ consumed mod 64 = 0
       /\ buffered d = skipn (Z.to_nat consumed) msg
       /\ d_h d = blockGenericDirect init_words (firstn (Z.to_nat consumed) msg).
Proof.
  intros Hx.
  destruct (stream_absorbed d0 chunks Hx) as (d & Hall & Habs).
  destruct Habs as ((_ & Hrange) & Hnx & _ & Hh & Hbuf).
  exists d. split; [exact Hall|]. split; [exact Hrange|]. cbn zeta.
  pose proof (len_nonneg (concat chunks)) as Hm.
  pose proof (Z.div_mod (len (concat chunks)) 64) as Hdm.
  assert (Hq : 0 <= len (concat chunks) / 64) by (apply Z.div_pos; lia).
  replace (len (concat chunks) - d_nx d) with (64 * (len (concat chunks) / 64)) by lia.
  repeat split.
  - lia.
  - rewrite Z.mul_comm. apply Z.mod_mul. lia.
  - exact Hbuf.
  - now rewrite blockGenericDirect_firstn.
Qed.

(** C6. [Sum] is non-destructive: on a digest reached by [Write] calls it
    returns the prefix followed by the digest of the bytes written so
    far and leaves the receiver as it was, hash words, buffer contents,
    buffered count and length counter; writing more bytes afterwards and
    finalising gives the digest of one stream over all the bytes. *)
Theorem Sum_is_non_destructive
  (d0 : digest) (chunks more : list (list Z)) (inp : list Z) :
  len (d_x d0) = 64 ->
  exists d out,
    write_all (Reset d0) chunks = Ok d
    /\ finalize d = Ok out
    /\ Sum d inp = Ok (d, inp ++ out)
    /\ ('(d1, _) <- Sum d inp ;; d2 <- write_all d1 more ;; finalize d2)
       = ('(d3, _) <- Write (Reset d0) (concat chunks ++ concat more) ;;
          finalize d3)
    /\ exists all,
         ('(d1, _) <- Sum d inp ;; d2 <- write_all d1 more ;; finalize d2)
         = Ok all.
Proof.
  intros Hx.
  destruct (stream_absorbed d0 chunks Hx) as (d & Hall & Habs).
  pose proof (finalize_absorbed d _ Habs) as Hfin.
  assert (HSum : Sum d inp = Ok (d, inp ++ stream_digest (concat chunks))).
  { unfold Sum. unfold finalize in Hfin.
    destruct (checkSum d) as [[d' o]|]; cbn [bind] in *; [|discriminate].
    injection Hfin as ->. reflexivity. }
  destruct (write_all_absorbed more d _ Habs) as (d2 & Hmore & Habs2).
  destruct (Write_absorbed (Reset d0) [] (concat chunks ++ concat more)
              (Reset_absorbed d0 Hx)) as (d3 & HW & Habs3).
  exists d, (stream_digest (concat chunks)).
  rewrite HSum, HW. cbn [bind app] in *. rewrite Hmore. cbn [bind].
  rewrite (finalize_absorbed d2 _ Habs2), (finalize_absorbed d3 _ Habs3).
  repeat split; try assumption. eexists. reflexivity.
Qed.

(** C8. Exact-multiple padding: when the bytes written so far make a
    whole number of blocks, zero included, finalisation writes 56 bytes,
    a [0x80] and 55 zeros, then the 8 bytes of the length: 64 bytes in
    all, and the hash words after them are one compression of this one
    block from the hash words of the input's own blocks. *)
Theorem exact_multiple_padding (d0 : digest) (chunks : list (list Z)) :
  len (d_x d0) = 64 ->
  len (concat chunks) mod 64 = 0 ->
  exists d d',
    write_all (Reset d0) chunks = Ok d
    /\ d_h d = blockGenericDirect init_words (concat chunks)
    /\ let p1 := 0x80 :: repeat 0 55 in
       let p2 := be64 (to_uint64 (Z.shiftl (d_len d) 3)) in
       pad d = ('(d1, _) <- Write d p1 ;; '(d2, _) <- Write d1 p2 ;; Ok d2)
       /\ len p1 = 56 /\ len p2 = 8
       /\ pad d = Ok d'
       /\ d_h d' = compress (d_h d) (p1 ++ p2)
       /\ d_len d' = to_uint64 (d_len d + 64).
Proof.
  intros Hx Hmult.
  destruct (stream_absorbed d0 chunks Hx) as (d & Hall & Habs).
  destruct (absorbed_counters d _ Habs) as [Hok Hnx].
  destruct Habs as (_ & Hnx0 & _ & Hh & _).
  rewrite Hmult in Hnx0.
  assert (Hl : d_len d mod 64 = 0) by lia.
  assert (Hk : pad_length (d_len d) = 56) by (unfold pad_length; rewrite Hl; reflexivity).
  destruct (pad_local d Hok Hnx) as (d' & Hpad & _ & _ & Hh' & Hlen').
  exists d, d'. split; [exact Hall|]. split; [exact Hh|]. cbn zeta.
  pose proof (pad_writes d) as Hw. rewrite Hk in Hw.
  change (Z.to_nat 56 - 1)%nat with 55%nat in Hw.
  repeat split.
  - exact Hw.
  - exact Hpad.
  - rewrite Hh'. unfold buffered, padding. rewrite Hnx0, Hk.
    change (Z.to_nat 56 - 1)%nat with 55%nat. cbn [Z.to_nat firstn app].
    apply blockGenericDirect_one. reflexivity.
  - rewrite Hlen', Hk. f_equal. lia.
Qed.

(** C10. The two serialisers agree: on the eight words of a state and a
    fresh 32-byte array, the byte-by-byte loop that closes [checkSum] and
    [Int2Bytes] produce the same 32 bytes, without a panic. *)
Theorem serializers_agree (a : uint32x8) :
  serialize_from 0 (words a) (make 32) = Int2Bytes (words a) (make 32)
  /\ exists out, Int2Bytes (words a) (make 32) = Ok out /\ len out = 32.
Proof.
  rewrite serialize_from_words, Int2Bytes_words. split; [reflexivity|].
  eexists. split; [reflexivity | apply len_be_bytes_words].
Qed.

(** *** The one-shot helpers *)

Lemma Sum256_stream (data : list Z) :
  Sum256 data = Ok (stream_digest data).
Proof.
  assert (H0 : absorbed (Reset zero_digest) []) by (apply Reset_absorbed; reflexivity).
  destruct (Write_absorbed _ _ data H0) as (d & HW & Habs).
  pose proof (finalize_absorbed d _ Habs) as Hfin.
  unfold Sum256. rewrite HW. cbn [bind app] in *. exact Hfin.
Qed.

Lemma len_store (s : list Z) (i v : Z) :
  0 <= i < len s -> len (firstn (Z.to_nat i) s ++ v :: skipn (S (Z.to_nat i)) s) = len s.
Proof.
  intros H. unfold len in *.
  rewrite length_app, length_firstn. cbn [length]. rewrite length_skipn. lia.
Qed.

(** The block that [Sum256D32] builds from its argument. *)
Lemma Sum256D32_block (data : list Z) :
  exists buf,
    (let '(b, _) := copy (make 64) data in
     b <- store b 32 0x80 ;; store b 62 0x01) = Ok buf
    /\ len buf = 64
    /\ Sum256D32 data = Ok (be_bytes (words (compress init_words buf))).
Proof.
  unfold Sum256D32, copy.
  set (n := Z.to_nat (Z.min (len (make 64)) (len data))).
  set (b0 := firstn n data ++ skipn n (make 64)).
  assert (Hb0 : len b0 = 64).
  { unfold b0, n, len. rewrite length_app, length_firstn, length_skipn.
    change (length (make 64)) with 64%nat. lia. }
  rewrite (store_ok b0 32) by lia. cbn [bind].
  set (b1 := firstn (Z.to_nat 32) b0 ++ 128 :: skipn (S (Z.to_nat 32)) b0).
  assert (Hb1 : len b1 = 64) by (unfold b1; rewrite len_store; lia).
  rewrite (store_ok b1 62) by lia. cbn [bind].
  set (b2 := firstn (Z.to_nat 62) b1 ++ 1 :: skipn (S (Z.to_nat 62)) b1).
  assert (Hb2 : len b2 = 64) by (unfold b2; rewrite len_store; lia).
  exists b2. split; [reflexivity|]. split; [exact Hb2|].
  rewrite Block_generic, blockGenericDirect_one by exact Hb2.
  rewrite Int2Bytes_words. reflexivity.
Qed.

(** C2, as the code has it. [Sum256D32] has no error path: whatever the
    length of its argument, it returns 32 bytes without an error and
    without a panic, the serialised compression, from the initial values,
    of the one block it builds from the argument. *)
Theorem Sum256D32_never_fails (data : list Z) :
  exists buf out,
    (let '(b, _) := copy (make 64) data in
     b <- store b 32 0x80 ;; store b 62 0x01) = Ok buf
    /\ Sum256D32 data = Ok out
    /\ out = be_bytes (words (compress init_words buf))
    /\ len out = 32.
Proof.
  destruct (Sum256D32_block data) as (buf & Hbuf & _ & Hsum).
  exists buf. eexists. split; [exact Hbuf|]. split; [exact Hsum|].
  split; [reflexivity | apply len_be_bytes_words].
Qed.

(** C3. Fast-path equivalence: on every input of exactly 32 bytes
    [Sum256D32] returns the digest that [Sum256] returns, 32 bytes. *)
Theorem Sum256D32_is_Sum256 (data : list Z) :
  len data = 32 ->
  Sum256D32 data = Sum256 data
  /\ exists out, Sum256 data = Ok out /\ len out = 32.
Proof.
  intros Hlen. rewrite Sum256_stream.
  split; [| eexists; split; [reflexivity | apply len_stream_digest]].
  destruct (Sum256D32_block data) as (buf & Hbuf & _ & Hsum).
  rewrite Hsum. unfold stream_digest. rewrite Hlen.
  rewrite blockGenericDirect_one.
  2:{ rewrite len_app, Hlen. reflexivity. }
  do 4 f_equal.
  do 32 (destruct data as [|? data];
         [exfalso; unfold len in Hlen; cbn [length] in Hlen; lia|]).
  destruct data; [| exfalso; unfold len in Hlen; cbn [length] in Hlen; lia].
  vm_compute in Hbuf. injection Hbuf as <-. vm_compute. reflexivity.
Qed.

(** ** Further properties of the engine *)

(** *** [Write], one call at a time *)

Lemma Write_blocks_total (d : digest) (p : list Z) :
  exists d' p', Write_blocks d p = Ok (d', p').
Proof.
  pose proof (len_nonneg p) as Hp.
  pose proof (Z.div_mod (len p) 64) as Hdm.
  pose proof (Z.mod_pos_bound (len p) 64) as Hm.
  assert (Hq : 0 <= len p / 64) by (apply Z.div_pos; lia).
  unfold Write_blocks. destruct (chunk <=? len p) eqn:E; [|eauto].
  rewrite ldiff_63 by lia.
  rewrite slice_to_ok, slice_from_ok by lia. cbn [bind]. eauto.
Qed.

(** X1. A digest whose buffered count exceeds the buffer makes [Write]
    panic on the slice [d.x[d.nx:]]; with any count up to 64, negative
    ones included, [Write] returns [len(p)] and a nil error. *)
Theorem Write_panics_past_the_buffer (d : digest) (p : list Z) :
  len (d_x d) = 64 ->
  (64 < d_nx d -> Write d p = Panic "slice bounds out of range")
  /\ (d_nx d <= 64 -> exists d', Write d p = Ok (d', (len p, None))).
Proof.
  intros Hx. pose proof (len_nonneg p) as Hp. split; intros Hnx.
  - unfold Write, Write_fill. cbn [d_nx d_x set_len].
    replace (0 <? d_nx d) with true by (symmetry; apply Z.ltb_lt; lia).
    unfold slice_from, slice. rewrite Hx.
    replace (d_nx d <=? 64) with false by (symmetry; apply Z.leb_gt; lia).
    rewrite andb_false_r. reflexivity.
  - unfold Write.
    set (d1 := set_len d _).
    assert (Hfill : exists d2 p2, Write_fill d1 p = Ok (d2, p2)).
    { unfold Write_fill. change (d_nx d1) with (d_nx d). change (d_x d1) with (d_x d).
      destruct (0 <? d_nx d) eqn:Hpos; [|eauto].
      apply Z.ltb_lt in Hpos.
      rewrite slice_from_ok by lia. cbn [bind]. unfold copy.
      rewrite len_skipn, Hx by lia.
      rewrite slice_from_ok by lia. cbn [bind]. eauto. }
    destruct Hfill as (d2 & p2 & Hfill). rewrite Hfill. cbn [bind].
    destruct (Write_blocks_total d2 p2) as (d3 & p3 & Hb). rewrite Hb. cbn [bind].
    eauto.
Qed.

(** X2. [Write] of the empty slice changes nothing: the digest after the
    call is the digest before it, field by field. *)
Theorem Write_nothing (d : digest) :
  digest_ok d -> 0 <= d_len d < 2 ^ 64 ->
  Write d [] = Ok (d, (0, None)).
Proof.
  intros [Hx Hnx] Hlen. unfold Write.
  change (len (@nil Z)) with 0. change (to_uint64 0) with 0.
  rewrite Z.add_0_r. unfold to_uint64 at 1. rewrite Z.mod_small by lia.
  replace (set_len d (d_len d)) with d by (destruct d; reflexivity).
  unfold Write_fill. destruct (0 <? d_nx d) eqn:Hpos.
  - apply Z.ltb_lt in Hpos.
    rewrite slice_from_ok by lia. cbn [bind]. unfold copy.
    change (len (@nil Z)) with 0.
    rewrite Z.min_r by (apply len_nonneg).
    cbn [Z.to_nat firstn skipn app]. unfold write_back. rewrite firstn_skipn.
    cbn [d_nx set_nx set_x]. rewrite Z.add_0_r.
    replace (d_nx d =? chunk) with false
      by (symmetry; apply Z.eqb_neq; unfold chunk; lia).
    destruct d; reflexivity.
  - reflexivity.
Qed.

(** X3. Below a whole block [Write] only buffers: when the buffered
    bytes and [p] together stay under 64 bytes, the hash words are left
    alone and the buffer holds the old bytes followed by [p]. *)
Theorem Write_only_buffers (d : digest) (p : list Z) :
  digest_ok d -> d_nx d + len p < 64 ->
  exists d',
    Write d p = Ok (d', (len p, None))
    /\ d_h d' = d_h d
    /\ d_nx d' = d_nx d + len p
    /\ buffered d' = buffered d ++ p.
Proof.
  intros Hok Hlt. pose proof Hok as [Hx Hnx]. pose proof (len_nonneg p) as Hp.
  destruct (Write_local d p Hok) as (xs & HW & Hxs & Hrem).
  assert (Hb : len (buffered d ++ p) = d_nx d + len p).
  { rewrite len_app. unfold buffered. rewrite len_firstn by lia. reflexivity. }
  rewrite Z.mod_small in * by lia. rewrite Z.div_small in Hrem by lia.
  eexists. split; [exact HW|]. cbn [d_h d_nx].
  repeat split.
  - apply blockGenericDirect_short. lia.
  - unfold buffered at 1. cbn [d_nx d_x]. exact Hrem.
Qed.

(** X4. On an empty buffer a [Write] of whole blocks goes straight to
    the backend: the buffer array is not touched and stays empty. *)
Theorem Write_whole_blocks_bypass_buffer (d : digest) (p : list Z) :
  len (d_x d) = 64 -> d_nx d = 0 -> len p mod 64 = 0 ->
  Write d p
  = Ok (mkdigest (blockGenericDirect (d_h d) p) (d_x d) 0
          (to_uint64 (d_len d + len p)),
        (len p, None)).
Proof.
  intros Hx Hnx Hmod. pose proof (len_nonneg p) as Hp.
  pose proof (Z.div_mod (len p) 64) as Hdm.
  assert (Hq : 0 <= len p / 64) by (apply Z.div_pos; lia).
  assert (Hlen : to_uint64 (d_len d + to_uint64 (len p)) = to_uint64 (d_len d + len p))
    by (unfold to_uint64; apply Zplus_mod_idemp_r).
  unfold Write, Write_fill. rewrite Hlen. cbn [d_nx set_len]. rewrite Hnx.
  cbn [Z.ltb Z.compare bind].
  unfold Write_blocks. destruct (chunk <=? len p) eqn:E.
  - rewrite ldiff_63 by lia.
    rewrite slice_to_ok, slice_from_ok by lia. cbn [bind].
    replace (64 * (len p / 64)) with (len p) by lia.
    rewrite firstn_all_len, skipn_all_len by lia.
    rewrite block_generic. unfold Write_keep. cbn [len length Z.of_nat Z.ltb Z.compare].
    unfold set_h, set_len. cbn. rewrite Hnx. reflexivity.
  - apply Z.leb_gt in E. unfold chunk in E.
    assert (H0 : len p = 0) by (rewrite Z.mod_small in Hmod by lia; exact Hmod).
    apply len_nil_inv in H0. subst p. cbn [bind].
    unfold Write_keep. cbn [len length Z.of_nat Z.ltb Z.compare].
    rewrite blockGenericDirect_short by (cbn; lia).
    unfold set_len. cbn. rewrite Hnx. reflexivity.
Qed.

(** X5. [Write] composes: from any digest that satisfies the invariant,
    two calls on [p] and then [q] and one call on [p ++ q] agree on the
    hash words, the buffered count, the buffered bytes and the length
    counter.  (Bytes of the array past the count may differ.) *)
Theorem Write_app (d : digest) (p q : list Z) :
  digest_ok d ->
  exists d1 d2 d12,
    Write d p = Ok (d1, (len p, None))
    /\ Write d1 q = Ok (d2, (len q, None))
    /\ Write d (p ++ q) = Ok (d12, (len p + len q, None))
    /\ d_h d2 = d_h d12
    /\ d_nx d2 = d_nx d12
    /\ buffered d2 = buffered d12
    /\ d_len d2 = d_len d12.
Proof.
  intros Hok. pose proof Hok as [Hx Hnx].
  pose proof (len_nonneg p) as Hp. pose proof (len_nonneg q) as Hq.
  destruct (Write_local d p Hok) as (xs1 & HW1 & Hxs1 & Hrem1).
  set (d1 := mkdigest _ xs1 _ _) in HW1.
  assert (Hok1 : digest_ok d1)
    by (split; cbn; [exact Hxs1 | apply Z.mod_pos_bound; lia]).
  destruct (Write_local d1 q Hok1) as (xs2 & HW2 & Hxs2 & Hrem2).
  destruct (Write_local d (p ++ q) Hok) as (xs3 & HW3 & Hxs3 & Hrem3).
  rewrite len_app in HW3, Hrem3.
  assert (Hb : len (buffered d ++ p) = d_nx d + len p).
  { rewrite len_app. unfold buffered. rewrite len_firstn by lia. reflexivity. }
  assert (Hb1 : buffered d1 = skipn (Z.to_nat (64 * (len (buffered d ++ p) / 64)))
                                (buffered d ++ p)).
  { unfold buffered at 1. cbn [d_nx d_x d1]. rewrite Hrem1, Hb. reflexivity. }
  pose proof (Z.div_mod (d_nx d + len p) 64) as Hdm.
  pose proof (Z.mod_pos_bound (d_nx d + len p) 64) as Hmb.
  assert (Hq1 : 0 <= (d_nx d + len p) / 64) by (apply Z.div_pos; lia).
  assert (Hmod : ((d_nx d + len p) mod 64 + len q) mod 64
                 = (d_nx d + (len p + len q)) mod 64).
  { rewrite Zplus_mod_idemp_l. f_equal. lia. }
  assert (Hdiv : (d_nx d + (len p + len q)) / 64
                 = (d_nx d + len p) / 64 + ((d_nx d + len p) mod 64 + len q) / 64).
  { transitivity (((d_nx d + len p) mod 64 + len q + (d_nx d + len p) / 64 * 64) / 64);
      [f_equal; lia | rewrite Z.div_add by lia; lia]. }
  exists d1. eexists. eexists.
  split; [exact HW1|]. split; [exact HW2|]. split; [exact HW3|].
  cbn [d_h d_nx d_len].
  repeat split.
  - change (d_h d1) with (blockGenericDirect (d_h d) (buffered d ++ p)).
    rewrite Hb1, blockGenericDirect_resume, <- app_assoc. reflexivity.
  - exact Hmod.
  - change (firstn (Z.to_nat ((d_nx d1 + len q) mod 64)) xs2
            = firstn (Z.to_nat ((d_nx d + (len p + len q)) mod 64)) xs3).
    rewrite Hrem2, Hrem3.
    change (d_nx d1) with ((d_nx d + len p) mod 64).
    rewrite Hb1, Hb, Hdiv.
    assert (Hq2 : 0 <= ((d_nx d + len p) mod 64 + len q) / 64)
      by (apply Z.div_pos; lia).
    rewrite skipn_resume by (unfold len in *; lia).
    rewrite <- app_assoc. f_equal. lia.
  - change (d_len d1) with (to_uint64 (d_len d + len p)).
    unfold to_uint64. rewrite Zplus_mod_idemp_l. f_equal. lia.
Qed.

(** *** Finalisation *)

(** The padding on any digest that satisfies the invariant, whatever its
    length counter says. *)
Lemma pad_count (d : digest) :
  digest_ok d ->
  exists d',
    pad d = Ok d'
    /\ d_nx d' = (d_nx d + pad_length (d_len d) + 8) mod 64.
Proof.
  intros Hok. rewrite pad_writes.
  set (p1 := 128 :: repeat 0 (Z.to_nat (pad_length (d_len d)) - 1)).
  set (p2 := be64 (to_uint64 (Z.shiftl (d_len d) 3))).
  assert (Hp1 : len p1 = pad_length (d_len d)) by apply len_padding_head.
  destruct (Write_local d p1 Hok) as (xs1 & HW1 & Hxs1 & _).
  rewrite HW1. cbn [bind]. rewrite Hp1 in *.
  set (d1 := mkdigest _ xs1 _ _).
  assert (Hok1 : digest_ok d1)
    by (split; cbn; [exact Hxs1 | apply Z.mod_pos_bound; lia]).
  destruct (Write_local d1 p2 Hok1) as (xs2 & HW2 & _ & _).
  rewrite HW2. cbn [bind].
  eexists. split; [reflexivity|]. cbn [d_nx].
  change (d_nx d1) with ((d_nx d + pad_length (d_len d)) mod 64).
  change (len p2) with 8. rewrite Zplus_mod_idemp_l. reflexivity.
Qed.

(** X6. What the panic of [checkSum] tests: on a digest that satisfies
    the invariant, [checkSum] returns a digest when the buffered count
    is the length counter modulo 64, and panics with "d.nx != 0" in
    every other case. *)
Theorem checkSum_panics_on_count_mismatch (d : digest) :
  digest_ok d ->
  (d_nx d = d_len d mod 64 /\ exists d' out, checkSum d = Ok (d', out))
  \/ (d_nx d <> d_len d mod 64 /\ checkSum d = Panic "d.nx != 0").
Proof.
  intros Hok. destruct (Z.eq_dec (d_nx d) (d_len d mod 64)) as [Heq | Hne].
  - left. split; [exact Heq|].
    destruct (checkSum_local d Hok Heq) as (d' & _ & _ & Hsum). eauto.
  - right. split; [exact Hne|].
    destruct (pad_count d Hok) as (d' & Hpad & Hnx').
    unfold checkSum. rewrite Hpad. cbn [bind].
    replace (d_nx d' =? 0) with false; [reflexivity|].
    symmetry. apply Z.eqb_neq. rewrite Hnx'.
    destruct Hok as [_ Hnx].
    pose proof (Z.mod_pos_bound (d_len d) 64) as Hr.
    unfold pad_length. intros H0.
    destruct (d_len d mod 64 <? 56) eqn:E;
      [apply Z.ltb_lt in E | apply Z.ltb_ge in E];
      apply Z.mod_divide in H0; try lia;
      destruct H0 as [k Hk]; lia.
Qed.

(** X7. The cost of finalisation: with fewer than 56 bytes buffered the
    buffered bytes and the padding make one block and the hash words go
    through one compression; with 56 bytes or more they make two blocks
    and the hash words go through two, chained. *)
Theorem finalization_compresses_once_or_twice (d : digest) :
  digest_ok d -> d_nx d = d_len d mod 64 ->
  exists d',
    pad d = Ok d'
    /\ let tail := buffered d ++ padding (d_len d) in
       (d_nx d < 56 ->
        len tail = 64 /\ d_h d' = compress (d_h d) tail)
       /\ (56 <= d_nx d ->
           len tail = 128
           /\ d_h d' = compress (compress (d_h d) (firstn 64 tail)) (skipn 64 tail)).
Proof.
  intros Hok Hnx. pose proof Hok as [Hx Hrange].
  destruct (pad_local d Hok Hnx) as (d' & Hpad & _ & _ & Hh & _).
  exists d'. split; [exact Hpad|]. cbn zeta.
  assert (Hlen : len (buffered d ++ padding (d_len d))
                 = d_nx d + pad_length (d_len d) + 8).
  { unfold padding. rewrite !len_app, len_padding_head.
    unfold buffered. rewrite len_firstn by lia. change (len (be64 _)) with 8. lia. }
  unfold pad_length in Hlen. rewrite <- Hnx in Hlen.
  split; intros Hcase.
  - replace (d_nx d <? 56) with true in Hlen by (symmetry; apply Z.ltb_lt; lia).
    split; [lia|]. rewrite Hh. apply blockGenericDirect_one. lia.
  - replace (d_nx d <? 56) with false in Hlen by (symmetry; apply Z.ltb_ge; lia).
    split; [lia|]. rewrite Hh.
    unfold blockGenericDirect, chunk. rewrite Hlen.
    replace (d_nx d + (64 + 56 - d_nx d) + 8) with 128 by lia.
    change (Z.to_nat (128 / 64)) with 2%nat. cbn [compress_blocks].
    f_equal. apply firstn_all2. rewrite length_skipn. unfold len in Hlen. lia.
Qed.

(** *** The streaming interface against the one-shot helper *)

Lemma be32_bounds (s : Z) : Forall (fun b => 0 <= b < 256) (be32 s).
Proof.
  unfold be32, to_byte. repeat constructor; apply Z.mod_pos_bound; lia.
Qed.

Lemma be_bytes_bounds (ws : list Z) : Forall (fun b => 0 <= b < 256) (be_bytes ws).
Proof.
  unfold be_bytes. induction ws as [|w ws IH]; [constructor|].
  cbn [flat_map]. apply Forall_app. split; [apply be32_bounds | exact IH].
Qed.

(** X8. [Sum256] is total: for every input it returns, without a panic,
    [Size] bytes, each of them in the range of a byte whatever words the
    compression function leaves. *)
Theorem Sum256_returns_32_bytes (data : list Z) :
  exists out,
    Sum256 data = Ok out
    /\ len out = Size
    /\ Forall (fun b => 0 <= b < 256) out.
Proof.
  exists (stream_digest data). split; [apply Sum256_stream|].
  split; [apply len_stream_digest | apply be_bytes_bounds].
Qed.

(** X9. The streaming interface computes what [Sum256] computes: after
    [Reset] on a digest in any state, stale buffer contents included, and
    any sequence of [Write] calls, [Sum] returns its argument followed by
    the [Sum256] of the bytes written. *)
Theorem Sum_after_Reset_is_Sum256
  (d0 : digest) (chunks : list (list Z)) (inp : list Z) :
  len (d_x d0) = 64 ->
  exists d out,
    write_all (Reset d0) chunks = Ok d
    /\ Sum256 (concat chunks) = Ok out
    /\ Sum d inp = Ok (d, inp ++ out)
    /\ len (inp ++ out) = len inp + Size.
Proof.
  intros Hx.
  destruct (stream_absorbed d0 chunks Hx) as (d & Hall & Habs).
  pose proof (finalize_absorbed d _ Habs) as Hfin.
  exists d, (stream_digest (concat chunks)).
  split; [exact Hall|]. split; [apply Sum256_stream|]. split.
  - unfold Sum. unfold finalize in Hfin.
    destruct (checkSum d) as [[d' o]|]; cbn [bind] in *; [|discriminate].
    injection Hfin as ->. reflexivity.
  - rewrite len_app, len_stream_digest. reflexivity.
Qed.

(** *** [Int2Bytes] on slices of any length *)

Lemma shiftl_2 (i : Z) : Z.shiftl i 2 = 4 * i.
Proof. rewrite Z.shiftl_mul_pow2 by lia. change (2 ^ 2) with 4. lia. Qed.

Lemma firstn_app3 {A} (a m r : list A) (n : nat) :
  n = (length a + length m)%nat -> firstn n (a ++ m ++ r) = a ++ m.
Proof.
  intros ->. rewrite app_assoc, <- length_app.
  rewrite firstn_app_le by lia. apply firstn_all.
Qed.

Lemma skipn_app3 {A} (a m r : list A) (n j : nat) :
  n = (length a + length m + j)%nat -> skipn n (a ++ m ++ r) = skipn j r.
Proof.
  intros ->. rewrite app_assoc, <- length_app, skipn_app.
  rewrite (skipn_all2 (a ++ m)) by lia. cbn [app]. f_equal. lia.
Qed.

Lemma Int2Bytes_from_ok (h : list Z) :
  forall (i : Z) (digest : list Z),
    0 <= i -> 4 * i + 4 * len h <= len digest ->
    Int2Bytes_from i h digest
    = Ok (firstn (Z.to_nat (4 * i)) digest ++ be_bytes h
          ++ skipn (Z.to_nat (4 * i + 4 * len h)) digest).
Proof.
  induction h as [|s h IH]; intros i digest Hi Hfit.
  - cbn [Int2Bytes_from be_bytes flat_map app]. change (len (@nil Z)) with 0.
    rewrite Z.mul_0_r, Z.add_0_r, firstn_skipn. reflexivity.
  - assert (Hlen : len (s :: h) = 1 + len h) by (unfold len; cbn [length]; lia).
    pose proof (len_nonneg h) as Hh. rewrite Hlen in *.
    cbn [Int2Bytes_from]. rewrite shiftl_2.
    rewrite slice_from_ok by lia. cbn [bind]. unfold PutUint32.
    replace (len (skipn (Z.to_nat (4 * i)) digest) <? 4) with false
      by (symmetry; apply Z.ltb_ge; rewrite len_skipn by lia; lia).
    cbn [bind]. fold (be32 s).
    set (digest1 := write_back digest (4 * i) _).
    assert (Hd1 : digest1 = firstn (Z.to_nat (4 * i)) digest ++ be32 s
                            ++ skipn (Z.to_nat (4 * i + 4)) digest).
    { unfold digest1, write_back. f_equal. unfold be32. cbn [app]. do 4 f_equal.
      rewrite skipn_skipn. f_equal. lia. }
    assert (Hl1 : len digest1 = len digest).
    { rewrite Hd1, !len_app, len_firstn, len_skipn by lia.
      change (len (be32 s)) with 4. lia. }
    rewrite IH by lia. f_equal.
    assert (Hk : length (firstn (Z.to_nat (4 * i)) digest) = Z.to_nat (4 * i))
      by (rewrite length_firstn; unfold len in *; lia).
    rewrite Hd1.
    rewrite (firstn_app3 (firstn (Z.to_nat (4 * i)) digest) (be32 s))
      by (rewrite Hk; change (length (be32 s)) with 4%nat; lia).
    rewrite (skipn_app3 (firstn (Z.to_nat (4 * i)) digest) (be32 s) _ _
               (Z.to_nat (4 * len h)))
      by (rewrite Hk; change (length (be32 s)) with 4%nat; lia).
    rewrite skipn_skipn.
    change (be_bytes (s :: h)) with (be32 s ++ be_bytes h).
    rewrite <- !app_assoc. do 4 f_equal. lia.
Qed.

Lemma Int2Bytes_from_panic (h : list Z) :
  forall (i : Z) (digest : list Z),
    0 <= i -> 4 * i <= len digest -> len digest < 4 * i + 4 * len h ->
    Int2Bytes_from i h digest = Panic "index out of range".
Proof.
  induction h as [|s h IH]; intros i digest Hi Hin Hshort.
  - change (len (@nil Z)) with 0 in Hshort. lia.
  - assert (Hlen : len (s :: h) = 1 + len h) by (unfold len; cbn [length]; lia).
    pose proof (len_nonneg h) as Hh. rewrite Hlen in *.
    cbn [Int2Bytes_from]. rewrite shiftl_2.
    rewrite slice_from_ok by lia. cbn [bind]. unfold PutUint32.
    destruct (len (skipn (Z.to_nat (4 * i)) digest) <? 4) eqn:E; [reflexivity|].
    apply Z.ltb_ge in E. rewrite len_skipn in E by lia. cbn [bind].
    apply IH; try lia.
    + unfold write_back. rewrite len_app, len_firstn by lia.
      unfold len at 1. cbn [length]. rewrite length_skipn, length_skipn.
      unfold len in *. lia.
    + unfold write_back. rewrite len_app, len_firstn by lia.
      unfold len at 1. cbn [length]. rewrite length_skipn, length_skipn.
      unfold len in *. lia.
Qed.

(** X10. [Int2Bytes] on a destination that has room: with at least four
    bytes per word it overwrites the first [4 * len(h)] bytes with the
    big-endian words, in order, and leaves the bytes after them alone. *)
Theorem Int2Bytes_overwrites_a_prefix (h digest : list Z) :
  4 * len h <= len digest ->
  Int2Bytes h digest
  = Ok (be_bytes h ++ skipn (Z.to_nat (4 * len h)) digest).
Proof.
  intros Hfit. unfold Int2Bytes. rewrite Int2Bytes_from_ok by lia.
  reflexivity.
Qed.

(** X11. [Int2Bytes] on a destination that is too short: with fewer
    than four bytes per word it panics, the bounds check of
    [PutUint32] failing on the first word that does not fit. *)
Theorem Int2Bytes_panics_on_short_destination (h digest : list Z) :
  len digest < 4 * len h ->
  Int2Bytes h digest = Panic "index out of range".
Proof.
  intros Hshort. unfold Int2Bytes.
  apply Int2Bytes_from_panic; pose proof (len_nonneg digest); lia.
Qed.

Lemma be32_inj (s t : Z) :
  0 <= s < 2 ^ 32 -> 0 <= t < 2 ^ 32 -> be32 s = be32 t -> s = t.
Proof.
  intros Hs Ht H. unfold be32, to_byte in H.
  rewrite !Z.shiftr_div_pow2 in H by lia.
  change (2 ^ 24) with 16777216 in H. change (2 ^ 16) with 65536 in H.
  change (2 ^ 8) with 256 in H. change (2 ^ 32) with 4294967296 in *.
  injection H as H3 H2 H1 H0.
  Z.div_mod_to_equations. lia.
Qed.

(** X12. The serialisation loses nothing: two states of 32-bit words
    that [Int2Bytes] renders to the same 32 bytes are the same state. *)
Theorem Int2Bytes_is_injective (a b : uint32x8) :
  Forall (fun w => 0 <= w < 2 ^ 32) (words a) ->
  Forall (fun w => 0 <= w < 2 ^ 32) (words b) ->
  Int2Bytes (words a) (make 32) = Int2Bytes (words b) (make 32) ->
  a = b.
Proof.
  intros Ha Hb H. rewrite !Int2Bytes_words in H.
  destruct a as [a0 a1 a2 a3 a4 a5 a6 a7], b as [b0 b1 b2 b3 b4 b5 b6 b7].
  unfold words in *. cbn [w0 w1 w2 w3 w4 w5 w6 w7] in *.
  repeat match goal with
         | F : Forall _ (_ :: _) |- _ => inversion F; subst; clear F
         | F : Forall _ [] |- _ => clear F
         end.
  unfold be_bytes, be32 in H. cbn [flat_map app] in H. injection H as ?.
  f_equal; apply be32_inj; try assumption; unfold be32; congruence.
Qed.

(** *** [Sum256D32] on inputs of any length *)

Lemma zero_fill (k : nat) :
  forall data : list Z,
    firstn k data ++ repeat 0 (k - length data)
    = map (fun i => nth i data 0) (seq 0 k).
Proof.
  induction k as [|k IH]; intros data; [reflexivity|].
  destruct data as [|a t].
  - specialize (IH []). rewrite firstn_nil, Nat.sub_0_r in IH. cbn [app] in IH.
    cbn [firstn length Nat.sub app repeat seq map nth]. f_equal.
    rewrite IH, <- seq_shift, map_map.
    apply map_ext. intros i. destruct i; reflexivity.
  - cbn [firstn length Nat.sub app seq map nth]. f_equal.
    rewrite IH, <- seq_shift, map_map. reflexivity.
Qed.

Lemma skipn_repeat_le (v : Z) (n : nat) :
  forall m : nat, (n <= m)%nat -> skipn n (repeat v m) = repeat v (m - n).
Proof.
  induction n as [|n IH]; intros m H.
  - now rewrite Nat.sub_0_r.
  - destruct m as [|m]; [lia|]. cbn [repeat skipn Nat.sub]. apply IH. lia.
Qed.

Lemma copy_into_zeros (data : list Z) :
  fst (copy (make 64) data) = map (fun i => nth i data 0) (seq 0 64).
Proof.
  unfold copy, make. cbn [fst]. rewrite len_repeat.
  rewrite <- zero_fill.
  destruct (Z_le_gt_dec 64 (len data)) as [Hge | Hlt].
  - rewrite Z.min_l by lia. change (Z.to_nat (Z.of_nat 64)) with 64%nat.
    rewrite skipn_repeat_le by lia.
    replace (64 - length data)%nat with 0%nat by (unfold len in Hge; lia).
    reflexivity.
  - rewrite Z.min_r by lia. unfold len. rewrite Nat2Z.id.
    rewrite skipn_repeat_le by (unfold len in Hlt; lia).
    rewrite firstn_all, (firstn_all2 (n := 64)) by (unfold len in Hlt; lia).
    reflexivity.
Qed.

(** [Sum256D32] in closed form. *)
Lemma Sum256D32_closed_form (data : list Z) :
  Sum256D32 data = Ok (be_bytes (words (compress init_words (d32_block data)))).
Proof.
  destruct (Sum256D32_block data) as (buf & Hbuf & _ & Hsum).
  rewrite Hsum. do 4 f_equal.
  pose proof (copy_into_zeros data) as Hc.
  destruct (copy (make 64) data) as [b n]. cbn [fst] in Hc. subst b.
  cbv -[nth] in Hbuf. injection Hbuf as <-. reflexivity.
Qed.

Lemma d32_block_ext (data data' : list Z) :
  (forall i, (i < 64)%nat -> i <> 32%nat -> i <> 62%nat ->
             nth i data 0 = nth i data' 0) ->
  d32_block data = d32_block data'.
Proof.
  intros H. unfold d32_block. apply map_ext_in. intros i Hi.
  apply in_seq in Hi.
  destruct (Nat.eqb i 32) eqn:E1; [reflexivity|].
  destruct (Nat.eqb i 62) eqn:E2; [reflexivity|].
  apply Nat.eqb_neq in E1, E2. apply H; lia.
Qed.

(** X13. What [Sum256D32] reads: its result depends on the input bytes
    at the indices below 64 other than 32 and 62 only, a missing byte
    counting as zero.  Bytes 32 and 62 are overwritten and bytes from 64
    on are never copied, so inputs that differ only there collide. *)
Theorem Sum256D32_reads_62_bytes (data data' : list Z) :
  (forall i, (i < 64)%nat -> i <> 32%nat -> i <> 62%nat ->
             nth i data 0 = nth i data' 0) ->
  Sum256D32 data = Sum256D32 data'.
Proof.
  intros H. rewrite !Sum256D32_closed_form.
  now rewrite (d32_block_ext data data' H).
Qed.

Lemma Sum256D32_stream (data : list Z) :
  len data = 32 -> Sum256D32 data = Ok (stream_digest data).
Proof.
  intros Hlen. rewrite Sum256D32_closed_form. unfold stream_digest.
  rewrite Hlen, blockGenericDirect_one by (rewrite len_app, Hlen; reflexivity).
  do 4 f_equal.
  do 32 (destruct data as [|? data];
         [exfalso; unfold len in Hlen; cbn [length] in Hlen; lia|]).
  destruct data; [| exfalso; unfold len in Hlen; cbn [length] in Hlen; lia].
  vm_compute. reflexivity.
Qed.

(** X14. A short input is zero-extended: on fewer than 32 bytes
    [Sum256D32] returns the [Sum256] of the input followed by zeros up
    to 32 bytes, not the [Sum256] of the input. *)
Theorem Sum256D32_zero_extends (data : list Z) :
  len data <= 32 ->
  Sum256D32 data = Sum256 (data ++ repeat 0 (32 - length data)).
Proof.
  intros Hlen. rewrite Sum256_stream.
  rewrite <- Sum256D32_stream.
  2:{ rewrite len_app, len_repeat. unfold len in *. lia. }
  rewrite !Sum256D32_closed_form. do 4 f_equal.
  apply d32_block_ext. intros i _ _ _.
  destruct (Nat.lt_ge_cases i (length data)) as [Hi | Hi].
  - now rewrite app_nth1.
  - rewrite app_nth2 by lia. rewrite nth_repeat.
    apply nth_overflow. lia.
Qed.

(** *** The whole computation *)

(** X15. The length counter counts the bytes written: after [Reset] and
    any [Write] calls it holds their total length as a [uint64], the
    total itself as long as that is below 2^64. *)
Theorem length_counter_is_total_length (d0 : digest) (chunks : list (list Z)) :
  len (d_x d0) = 64 ->
  exists d,
    write_all (Reset d0) chunks = Ok d
    /\ d_len d = to_uint64 (len (concat chunks))
    /\ (len (concat chunks) < 2 ^ 64 -> d_len d = len (concat chunks)).
Proof.
  intros Hx.
  destruct (stream_absorbed d0 chunks Hx) as (d & Hall & Habs).
  destruct Habs as (_ & _ & Hlen & _).
  exists d. split; [exact Hall|]. split; [exact Hlen|].
  intros Hfit. rewrite Hlen. unfold to_uint64. apply Z.mod_small.
  pose proof (len_nonneg (concat chunks)). lia.
Qed.

(** X16. What [Sum256] computes, given the compression function: the
    chained compression, from the eight initial values, of the input
    followed by [0x80], by the fewest zeros that bring the length to 56
    modulo 64, and by the bit length of the input as 8 big-endian bytes;
    the result is serialised big-endian, word by word. *)
Theorem Sum256_is_padded_compression (data : list Z) :
  exists k : nat,
    (k < 64)%nat
    /\ (len data + 1 + Z.of_nat k) mod 64 = 56
    /\ Sum256 data
       = Ok (be_bytes (words
               (blockGenericDirect init_words
                  (data ++ 0x80 :: repeat 0 k
                        ++ be64 (to_uint64 (8 * len data)))))).
Proof.
  pose proof (pad_length_bounds (to_uint64 (len data))) as Hk.
  pose proof (pad_length_mod (to_uint64 (len data))) as Hm.
  assert (Hr : to_uint64 (len data) mod 64 = len data mod 64).
  { unfold to_uint64. change (2 ^ 64) with (64 * 288230376151711744).
    rewrite Z.rem_mul_r by lia.
    rewrite (Z.mul_comm 64), Z.mod_add, Z.mod_mod by lia. reflexivity. }
  exists (Z.to_nat (pad_length (to_uint64 (len data))) - 1)%nat.
  split; [lia|]. split.
  - rewrite Hr in Hm. rewrite <- Hm, Zplus_mod_idemp_l.
    f_equal. lia.
  - assert (He : to_uint64 (Z.shiftl (to_uint64 (len data)) 3)
                 = to_uint64 (8 * len data)).
    { rewrite Z.shiftl_mul_pow2 by lia. change (2 ^ 3) with 8.
      unfold to_uint64. rewrite Zmult_mod_idemp_l. f_equal. lia. }
    rewrite Sum256_stream. unfold stream_digest, padding.
    rewrite He. reflexivity.
Qed.

End Engine.

(** ** The engine on the SHA-256 compression function *)

(** C4, as the code has it. The digest of the empty input in lowercase
    hexadecimal, whatever the capability flags: 64 digits, the 63 digits
    of the specification followed by a final 5. *)
Theorem empty_input_digest (avx2 avx ssse3 armSha : bool) :
  hex_result (Sum256 SHA256.compress avx2 avx ssse3 armSha [])
  = Ok "e3b0c44298fc1c149afbf4c8996fb92427ae41e4649b934ca495991b7852b855"%string.
Proof. rewrite Sum256_stream. vm_compute. reflexivity. Qed.

(** C4, as stated, fails: the digest of the empty input is not the
    63-digit string of the specification. *)
Lemma digest_of_empty_is_not_63_digits :
  hex_result (Sum256 SHA256.compress false false false false [])
  <> Ok "e3b0c44298fc1c149afbf4c8996fb92427ae41e4649b934ca495991b7852b85"%string.
Proof. vm_compute. intros H. discriminate H. Qed.

(** The second known vector, the digest of the three bytes of "abc". *)
Example abc_digest (avx2 avx ssse3 armSha : bool) :
  hex_result (Sum256 SHA256.compress avx2 avx ssse3 armSha [97; 98; 99])
  = Ok "ba7816bf8f01cfea414140de5dae2223b00361a396177a9cb410ff61f20015ad"%string.
Proof. rewrite Sum256_stream. vm_compute. reflexivity. Qed.

(** A 56-byte vector of the standard, which takes the second branch of
    the padding. *)
Example two_block_digest (avx2 avx ssse3 armSha : bool) :
  hex_result
    (Sum256 SHA256.compress avx2 avx ssse3 armSha
       [97; 98; 99; 100; 98; 99; 100; 101; 99; 100; 101; 102; 100; 101;
        102; 103; 101; 102; 103; 104; 102; 103; 104; 105; 103; 104; 105;
        106; 104; 105; 106; 107; 105; 106; 107; 108; 106; 107; 108; 109;
        107; 108; 109; 110; 108; 109; 110; 111; 109; 110; 111; 112; 110;
        111; 112; 113])
  = Ok "248d6a61d20638b8e5c026930c3e6039a33ce45964ff2167f6ecedd419db06c1"%string.
Proof. rewrite Sum256_stream. vm_compute. reflexivity. Qed.

(** C2, as stated, fails: on the empty input, whose length is not 32,
    [Sum256D32] reports nothing and returns 32 bytes that are not the
    digest of the input. *)
Lemma Sum256D32_empty_input_no_error :
  len (@nil Z) <> 32
  /\ exists out,
       Sum256D32 SHA256.compress false false false false [] = Ok out
       /\ Sum256 SHA256.compress false false false false [] <> Ok out.
Proof.
  split; [discriminate|].
  eexists. split; [vm_compute; reflexivity|].
  vm_compute. intros H. discriminate H.
Qed.

(** *** Instances *)

Lemma chunking_invariance_witness :
  len (d_x zero_digest) = 64
  /\ ((d <- write_all SHA256.compress false false false false
              (Reset zero_digest) [[97]; []; [98; 99]] ;;
       finalize SHA256.compress false false false false d)
      = ('(d, _) <- Write SHA256.compress false false false false
                     (Reset zero_digest) (concat [[97]; []; [98; 99]]) ;;
         finalize SHA256.compress false false false false d)
      /\ exists out,
           (d <- write_all SHA256.compress false false false false
                   (Reset zero_digest) [[97]; []; [98; 99]] ;;
            finalize SHA256.compress false false false false d) = Ok out
           /\ len out = 32).
Proof.
  split; [reflexivity|].
  apply (chunking_invariance SHA256.compress false false false false
           zero_digest [[97]; []; [98; 99]]).
  reflexivity.
Defined.

Lemma padding_empties_buffer_witness :
  len (d_x zero_digest) = 64
  /\ exists d d' out,
       write_all SHA256.compress false false false false
         (Reset zero_digest) [repeat 7 60; [1; 2]] = Ok d
       /\ pad SHA256.compress false false false false d = Ok d'
       /\ d_nx d' = 0
       /\ checkSum SHA256.compress false false false false d = Ok (d', out).
Proof.
  split; [reflexivity|].
  apply (padding_empties_buffer SHA256.compress false false false false
           zero_digest [repeat 7 60; [1; 2]]).
  reflexivity.
Defined.

Lemma Write_accepts_everything_witness :
  digest_ok (Reset zero_digest)
  /\ exists d',
       Write SHA256.compress false false false false (Reset zero_digest) [1; 2; 3]
       = Ok (d', (len [1; 2; 3], None))
       /\ d_len d' = to_uint64 (d_len (Reset zero_digest) + len [1; 2; 3])
       /\ (0 <= d_len (Reset zero_digest) ->
           d_len (Reset zero_digest) + len [1; 2; 3] < 2 ^ 64 ->
           d_len d' = d_len (Reset zero_digest) + len [1; 2; 3]).
Proof.
  assert (H : digest_ok (Reset zero_digest)) by (split; [reflexivity | cbn; lia]).
  split; [exact H|].
  apply (Write_accepts_everything SHA256.compress false false false false
           (Reset zero_digest) [1; 2; 3] H).
Defined.

Lemma buffered_count_invariant_witness :
  len (d_x zero_digest) = 64
  /\ exists d,
       write_all SHA256.compress false false false false
         (Reset zero_digest) [repeat 7 60; repeat 9 70] = Ok d
       /\ 0 <= d_nx d < 64
       /\ let msg := concat [repeat 7 60; repeat 9 70] in
          let consumed := len msg - d_nx d in
          0 <= consumed
          /\ consumed mod 64 = 0
          /\ buffered d = skipn (Z.to_nat consumed) msg
          /\ d_h d = blockGenericDirect SHA256.compress init_words
                       (firstn (Z.to_nat consumed) msg).
Proof.
  split; [reflexivity|].
  apply (buffered_count_invariant SHA256.compress false false false false
           zero_digest [repeat 7 60; repeat 9 70]).
  reflexivity.
Defined.

Lemma Sum256D32_is_Sum256_witness :
  len (repeat 0 32) = 32
  /\ (Sum256D32 SHA256.compress false false false false (repeat 0 32)
      = Sum256 SHA256.compress false false false false (repeat 0 32)
      /\ exists out,
           Sum256 SHA256.compress false false false false (repeat 0 32) = Ok out
           /\ len out = 32).
Proof.
  split; [reflexivity|].
  apply (Sum256D32_is_Sum256 SHA256.compress false false false false (repeat 0 32)).
  reflexivity.
Defined.

Lemma Sum_is_non_destructive_witness :
  len (d_x zero_digest) = 64
  /\ exists d out,
       write_all SHA256.compress false false false false
         (Reset zero_digest) [[97]] = Ok d
       /\ finalize SHA256.compress false false false false d = Ok out
       /\ Sum SHA256.compress false false false false d [0] = Ok (d, [0] ++ out)
       /\ ('(d1, _) <- Sum SHA256.compress false false false false d [0] ;;
           d2 <- write_all SHA256.compress false false false false d1 [[98; 99]] ;;
           finalize SHA256.compress false false false false d2)
          = ('(d3, _) <- Write SHA256.compress false false false false
                           (Reset zero_digest) (concat [[97]] ++ concat [[98; 99]]) ;;
             finalize SHA256.compress false false false false d3)
       /\ exists all,
            ('(d1, _) <- Sum SHA256.compress false false false false d [0] ;;
             d2 <- write_all SHA256.compress false false false false d1 [[98; 99]] ;;
             finalize SHA256.compress false false false false d2)
            = Ok all.
Proof.
  split; [reflexivity|].
  apply (Sum_is_non_destructive SHA256.compress false false false false
           zero_digest [[97]] [[98; 99]] [0]).
  reflexivity.
Defined.

Lemma exact_multiple_padding_witness :
  len (d_x zero_digest) = 64
  /\ len (concat [repeat 7 60; repeat 9 68]) mod 64 = 0
  /\ exists d d',
       write_all SHA256.compress false false false false
         (Reset zero_digest) [repeat 7 60; repeat 9 68] = Ok d
       /\ d_h d = blockGenericDirect SHA256.compress init_words
                    (concat [repeat 7 60; repeat 9 68])
       /\ let p1 := 0x80 :: repeat 0 55 in
          let p2 := be64 (to_uint64 (Z.shiftl (d_len d) 3)) in
          pad SHA256.compress false false false false d
          = ('(d1, _) <- Write SHA256.compress false false false false d p1 ;;
             '(d2, _) <- Write SHA256.compress false false false false d1 p2 ;;
             Ok d2)
          /\ len p1 = 56 /\ len p2 = 8
          /\ pad SHA256.compress false false false false d = Ok d'
          /\ d_h d' = SHA256.compress (d_h d) (p1 ++ p2)
          /\ d_len d' = to_uint64 (d_len d + 64).
Proof.
  split; [reflexivity|]. split; [reflexivity|].
  apply (exact_multiple_padding SHA256.compress false false false false
           zero_digest [repeat 7 60; repeat 9 68]); reflexivity.
Defined.

(** *** Instances of the further properties *)

Lemma Write_panics_past_the_buffer_witness :
  len (d_x (mkdigest init_words (make 64) 65 0)) = 64
  /\ ((64 < d_nx (mkdigest init_words (make 64) 65 0) ->
       Write SHA256.compress false false false false
         (mkdigest init_words (make 64) 65 0) [1]
       = Panic "slice bounds out of range")
      /\ (d_nx (mkdigest init_words (make 64) 65 0) <= 64 ->
          exists d',
            Write SHA256.compress false false false false
              (mkdigest init_words (make 64) 65 0) [1]
            = Ok (d', (len [1], None)))).
Proof.
  split; [reflexivity|].
  apply (Write_panics_past_the_buffer SHA256.compress false false false false
           (mkdigest init_words (make 64) 65 0) [1]).
  reflexivity.
Defined.

Lemma Write_nothing_witness :
  digest_ok (Reset zero_digest)
  /\ 0 <= d_len (Reset zero_digest) < 2 ^ 64
  /\ Write SHA256.compress false false false false (Reset zero_digest) []
     = Ok (Reset zero_digest, (0, None)).
Proof.
  assert (H : digest_ok (Reset zero_digest)) by (split; [reflexivity | cbn; lia]).
  assert (H' : 0 <= d_len (Reset zero_digest) < 2 ^ 64) by (cbn; lia).
  split; [exact H|]. split; [exact H'|].
  apply (Write_nothing SHA256.compress false false false false
           (Reset zero_digest) H H').
Defined.

Lemma Write_only_buffers_witness :
  digest_ok (Reset zero_digest)
  /\ d_nx (Reset zero_digest) + len [1; 2; 3] < 64
  /\ exists d',
       Write SHA256.compress false false false false (Reset zero_digest) [1; 2; 3]
       = Ok (d', (len [1; 2; 3], None))
       /\ d_h d' = d_h (Reset zero_digest)
       /\ d_nx d' = d_nx (Reset zero_digest) + len [1; 2; 3]
       /\ buffered d' = buffered (Reset zero_digest) ++ [1; 2; 3].
Proof.
  assert (H : digest_ok (Reset zero_digest)) by (split; [reflexivity | cbn; lia]).
  assert (H' : d_nx (Reset zero_digest) + len [1; 2; 3] < 64) by (cbn; lia).
  split; [exact H|]. split; [exact H'|].
  apply (Write_only_buffers SHA256.compress false false false false
           (Reset zero_digest) [1; 2; 3] H H').
Defined.

Lemma Write_whole_blocks_bypass_buffer_witness :
  len (d_x (Reset zero_digest)) = 64
  /\ d_nx (Reset zero_digest) = 0
  /\ len (repeat 7 128) mod 64 = 0
  /\ Write SHA256.compress false false false false (Reset zero_digest) (repeat 7 128)
     = Ok (mkdigest
             (blockGenericDirect SHA256.compress (d_h (Reset zero_digest))
                (repeat 7 128))
             (d_x (Reset zero_digest)) 0
             (to_uint64 (d_len (Reset zero_digest) + len (repeat 7 128))),
           (len (repeat 7 128), None)).
Proof.
  split; [reflexivity|]. split; [reflexivity|]. split; [reflexivity|].
  apply (Write_whole_blocks_bypass_buffer SHA256.compress false false false false
           (Reset zero_digest) (repeat 7 128)); reflexivity.
Defined.

Lemma Write_app_witness :
  digest_ok (Reset zero_digest)
  /\ exists d1 d2 d12,
       Write SHA256.compress false false false false
         (Reset zero_digest) (repeat 7 10) = Ok (d1, (len (repeat 7 10), None))
       /\ Write SHA256.compress false false false false d1 (repeat 9 64)
          = Ok (d2, (len (repeat 9 64), None))
       /\ Write SHA256.compress false false false false
            (Reset zero_digest) (repeat 7 10 ++ repeat 9 64)
          = Ok (d12, (len (repeat 7 10) + len (repeat 9 64), None))
       /\ d_h d2 = d_h d12
       /\ d_nx d2 = d_nx d12
       /\ buffered d2 = buffered d12
       /\ d_len d2 = d_len d12.
Proof.
  assert (H : digest_ok (Reset zero_digest)) by (split; [reflexivity | cbn; lia]).
  split; [exact H|].
  apply (Write_app SHA256.compress false false false false
           (Reset zero_digest) (repeat 7 10) (repeat 9 64) H).
Defined.

Lemma checkSum_panics_on_count_mismatch_witness :
  digest_ok (mkdigest init_words (make 64) 1 0)
  /\ ((d_nx (mkdigest init_words (make 64) 1 0)
       = d_len (mkdigest init_words (make 64) 1 0) mod 64
       /\ exists d' out,
            checkSum SHA256.compress false false false false
              (mkdigest init_words (make 64) 1 0) = Ok (d', out))
      \/ (d_nx (mkdigest init_words (make 64) 1 0)
          <> d_len (mkdigest init_words (make 64) 1 0) mod 64
          /\ checkSum SHA256.compress false false false false
               (mkdigest init_words (make 64) 1 0) = Panic "d.nx != 0")).
Proof.
  assert (H : digest_ok (mkdigest init_words (make 64) 1 0))
    by (split; [reflexivity | cbn; lia]).
  split; [exact H|].
  apply (checkSum_panics_on_count_mismatch SHA256.compress false false false false
           (mkdigest init_words (make 64) 1 0) H).
Defined.

Lemma finalization_compresses_once_or_twice_witness :
  digest_ok (mkdigest init_words (repeat 7 64) 60 60)
  /\ d_nx (mkdigest init_words (repeat 7 64) 60 60)
     = d_len (mkdigest init_words (repeat 7 64) 60 60) mod 64
  /\ exists d',
       pad SHA256.compress false false false false
         (mkdigest init_words (repeat 7 64) 60 60) = Ok d'
       /\ let tail := buffered (mkdigest init_words (repeat 7 64) 60 60)
                      ++ padding (d_len (mkdigest init_words (repeat 7 64) 60 60)) in
          (d_nx (mkdigest init_words (repeat 7 64) 60 60) < 56 ->
           len tail = 64
           /\ d_h d' = SHA256.compress
                         (d_h (mkdigest init_words (repeat 7 64) 60 60)) tail)
          /\ (56 <= d_nx (mkdigest init_words (repeat 7 64) 60 60) ->
              len tail = 128
              /\ d_h d' = SHA256.compress
                            (SHA256.compress
                               (d_h (mkdigest init_words (repeat 7 64) 60 60))
                               (firstn 64 tail))
                            (skipn 64 tail)).
Proof.
  assert (H : digest_ok (mkdigest init_words (repeat 7 64) 60 60))
    by (split; [reflexivity | cbn; lia]).
  split; [exact H|]. split; [reflexivity|].
  apply (finalization_compresses_once_or_twice SHA256.compress false false false false
           (mkdigest init_words (repeat 7 64) 60 60) H).
  reflexivity.
Defined.

Lemma Sum_after_Reset_is_Sum256_witness :
  len (d_x (mkdigest init_words (repeat 7 64) 60 60)) = 64
  /\ exists d out,
       write_all SHA256.compress false false false false
         (Reset (mkdigest init_words (repeat 7 64) 60 60)) [[97]; [98; 99]] = Ok d
       /\ Sum256 SHA256.compress false false false false (concat [[97]; [98; 99]])
          = Ok out
       /\ Sum SHA256.compress false false false false d [0] = Ok (d, [0] ++ out)
       /\ len ([0] ++ out) = len [0] + Size.
Proof.
  split; [reflexivity|].
  apply (Sum_after_Reset_is_Sum256 SHA256.compress false false false false
           (mkdigest init_words (repeat 7 64) 60 60) [[97]; [98; 99]] [0]).
  reflexivity.
Defined.

Lemma Int2Bytes_overwrites_a_prefix_witness :
  4 * len [1; 2] <= len (repeat 9 10)
  /\ Int2Bytes [1; 2] (repeat 9 10)
     = Ok (be_bytes [1; 2] ++ skipn (Z.to_nat (4 * len [1; 2])) (repeat 9 10)).
Proof.
  assert (H : 4 * len [1; 2] <= len (repeat 9 10)) by (cbn; lia).
  split; [exact H|].
  apply (Int2Bytes_overwrites_a_prefix [1; 2] (repeat 9 10) H).
Defined.

Lemma Int2Bytes_panics_on_short_destination_witness :
  len (repeat 9 7) < 4 * len [1; 2]
  /\ Int2Bytes [1; 2] (repeat 9 7) = Panic "index out of range".
Proof.
  assert (H : len (repeat 9 7) < 4 * len [1; 2]) by (cbn; lia).
  split; [exact H|].
  apply (Int2Bytes_panics_on_short_destination [1; 2] (repeat 9 7) H).
Defined.

Lemma Int2Bytes_is_injective_witness :
  Forall (fun w => 0 <= w < 2 ^ 32) (words init_words)
  /\ Forall (fun w => 0 <= w < 2 ^ 32) (words init_words)
  /\ Int2Bytes (words init_words) (make 32) = Int2Bytes (words init_words) (make 32)
  /\ init_words = init_words.
Proof.
  assert (H : Forall (fun w => 0 <= w < 2 ^ 32) (words init_words))
    by (repeat (apply Forall_cons;
                  [vm_compute; split; [discriminate | reflexivity]|]);
        apply Forall_nil).
  split; [exact H|]. split; [exact H|]. split; [reflexivity|].
  apply (Int2Bytes_is_injective init_words init_words H H).
  reflexivity.
Defined.

Lemma Sum256D32_reads_62_bytes_witness :
  (forall i, (i < 64)%nat -> i <> 32%nat -> i <> 62%nat ->
             nth i (repeat 0 32) 0 = nth i (repeat 0 32 ++ repeat 5 1 ++ repeat 0 31 ++ repeat 9 8) 0)
  /\ Sum256D32 SHA256.compress false false false false (repeat 0 32)
     = Sum256D32 SHA256.compress false false false false
         (repeat 0 32 ++ repeat 5 1 ++ repeat 0 31 ++ repeat 9 8).
Proof.
  assert (H : forall i, (i < 64)%nat -> i <> 32%nat -> i <> 62%nat ->
                nth i (repeat 0 32) 0
                = nth i (repeat 0 32 ++ repeat 5 1 ++ repeat 0 31 ++ repeat 9 8) 0).
  { intros i Hi H32 H62.
    do 64 (destruct i as [|i]; [try reflexivity; contradiction|]). lia. }
  split; [exact H|].
  apply (Sum256D32_reads_62_bytes SHA256.compress false false false false
           (repeat 0 32) (repeat 0 32 ++ repeat 5 1 ++ repeat 0 31 ++ repeat 9 8) H).
Defined.

Lemma Sum256D32_zero_extends_witness :
  len [1; 2; 3] <= 32
  /\ Sum256D32 SHA256.compress false false false false [1; 2; 3]
     = Sum256 SHA256.compress false false false false
         ([1; 2; 3] ++ repeat 0 (32 - length [1; 2; 3])).
Proof.
  assert (H : len [1; 2; 3] <= 32) by (cbn; lia).
  split; [exact H|].
  apply (Sum256D32_zero_extends SHA256.compress false false false false [1; 2; 3] H).
Defined.

Lemma length_counter_is_total_length_witness :
  len (d_x zero_digest) = 64
  /\ exists d,
       write_all SHA256.compress false false false false
         (Reset zero_digest) [repeat 7 60; repeat 9 70] = Ok d
       /\ d_len d = to_uint64 (len (concat [repeat 7 60; repeat 9 70]))
       /\ (len (concat [repeat 7 60; repeat 9 70]) < 2 ^ 64 ->
           d_len d = len (concat [repeat 7 60; repeat 9 70])).
Proof.
  split; [reflexivity|].
  apply (length_counter_is_total_length SHA256.compress false false false false
           zero_digest [repeat 7 60; repeat 9 70]).
  reflexivity.
Defined.
